(** * StitchDB: the transaction engine ([tx.go])

    A shallow embedding of the [Tx] type of StitchDB and of its methods
    ([RollbackTx], [CommitTx], [lock], [unlock], [Get], [Set], [Delete],
    [CreateIndex], [DropIndex], [Indexes]), followed by the properties of
    the transaction protocol that the specification states.

    Naming.  A Go method [(t *Tx) M] is the Rocq function [Tx_M]; a method
    [(b *Bucket) m] is [Bucket_m].  The receiver prefix is needed because
    [Set] is a sort of Rocq and [insert], [delete] are operations of the
    map library.  Go maps are [gmap]s; a Go map whose values are pointers
    that may be [nil] is a [gmap] into [option]. *)

From Stdlib Require Import ZArith.
From stdpp Require Import gmap strings list fin_maps sorting.

Open Scope string_scope.

(** ** Data model *)

(** An entry: [k] is the field the transaction code reads ([e.k],
    [Entry{k: key}]); the remaining fields follow the data model of the
    specification (value, optional expiration, validity flag). *)
Record Entry : Type := mkEntry {
  k : string;
  v : string;
  expiresAt : option Z;
  valid : bool
}.

#[global] Instance Entry_eq_dec : EqDecision Entry.
Proof. solve_decision. Defined.

(** [&Entry{k: key}]: every field but the key has its zero value. *)
Definition Entry_of_key (key : string) : Entry :=
  {| k := key; v := ""; expiresAt := None; valid := false |}.

(** Modelled from the spec: the ordered tree [ind.t] of a secondary index
    is declared outside [tx.go].  The transaction code only calls
    [ReplaceOrInsert] and [Delete] on it; the tree is kept as the finite map
    from the key of an entry to the entry the index holds for it. *)
Record Index : Type := mkIndex {
  pattern : string;
  t : gmap string Entry
}.

#[global] Instance Index_eq_dec : EqDecision Index.
Proof. solve_decision. Defined.

Definition Tree_ReplaceOrInsert (e : Entry) (ind : Index) : Index :=
  {| pattern := pattern ind; t := <[k e := e]> (t ind) |}.

Definition Tree_Delete (e : Entry) (ind : Index) : Index :=
  {| pattern := pattern ind; t := delete (k e) (t ind) |}.

(** Modelled from the spec: [sync.RWMutex] as the number of shared holders
    and the exclusive-holder flag.  Acquiring yields [None] when the caller
    would have to wait; releasing a lock that is not held is a fatal error
    of the Go runtime, [None] as well. *)
Record RWMutex : Type := mkRWMutex {
  readers : nat;
  writer : bool
}.

#[global] Instance RWMutex_eq_dec : EqDecision RWMutex.
Proof. solve_decision. Defined.

Definition RLock (l : RWMutex) : option RWMutex :=
  if writer l then None else Some {| readers := S (readers l); writer := false |}.

Definition RUnlock (l : RWMutex) : option RWMutex :=
  match readers l with
  | O => None
  | S n => Some {| readers := n; writer := writer l |}
  end.

Definition Lock (l : RWMutex) : option RWMutex :=
  match readers l, writer l with
  | O, false => Some {| readers := O; writer := true |}
  | _, _ => None
  end.

Definition Unlock (l : RWMutex) : option RWMutex :=
  if writer l then Some {| readers := readers l; writer := false |} else None.

(** A record of the append-only file. *)
Inductive LogRecord : Type :=
  | InsertRecord (e : Entry)
  | DeleteRecord (key : string).

#[global] Instance LogRecord_eq_dec : EqDecision LogRecord.
Proof. solve_decision. Defined.

Definition record_key (r : LogRecord) : string :=
  match r with
  | InsertRecord e => k e
  | DeleteRecord key => key
  end.

(** Modelled from the spec: the [Bucket] type is declared outside [tx.go].
    It owns the primary index [data], the registry [indexes] of secondary
    indexes, the reader/writer lock [bktlock], the [open] flag, the pending
    buffer [aofbuf] of log records and the records [aof] already flushed. *)
Record Bucket : Type := mkBucket {
  data : gmap string Entry;
  indexes : gmap string Index;
  bktlock : RWMutex;
  open : bool;
  aofbuf : list LogRecord;
  aof : list LogRecord
}.

Definition set_data (d : gmap string Entry) (b : Bucket) : Bucket :=
  {| data := d; indexes := indexes b; bktlock := bktlock b; open := open b;
     aofbuf := aofbuf b; aof := aof b |}.

Definition set_indexes (ix : gmap string Index) (b : Bucket) : Bucket :=
  {| data := data b; indexes := ix; bktlock := bktlock b; open := open b;
     aofbuf := aofbuf b; aof := aof b |}.

Definition set_bktlock (l : RWMutex) (b : Bucket) : Bucket :=
  {| data := data b; indexes := indexes b; bktlock := l; open := open b;
     aofbuf := aofbuf b; aof := aof b |}.

Definition set_log (buf file : list LogRecord) (b : Bucket) : Bucket :=
  {| data := data b; indexes := indexes b; bktlock := bktlock b; open := open b;
     aofbuf := buf; aof := file |}.

(** Modelled from the spec: the primitives of the bucket on its primary
    index ([primaryIndexInsert/Delete/Get] of the external interface), whose
    bodies are outside [tx.go].  [insert] replaces or inserts the entry under
    its key and returns the entry that occupied the key; [delete] removes
    the key and returns the removed entry; neither touches [indexes], which
    is why [RollbackTx] walks the registry itself after each call. *)
Definition Bucket_get (e : Entry) (b : Bucket) : option Entry :=
  data b !! k e.

Definition Bucket_insert (e : Entry) (b : Bucket) : option Entry * Bucket :=
  (data b !! k e, set_data (<[k e := e]> (data b)) b).

Definition Bucket_delete (e : Entry) (b : Bucket) : option Entry * Bucket :=
  (data b !! k e, set_data (delete (k e) (data b)) b).

(** Modelled from the spec: [appendLogRecord] and [flushLog] of the
    durability interface.  The two [Write...Entry] calls append one record
    to the pending buffer, [WriteAOFBuf] moves the buffer to the file. *)
Definition Bucket_WriteInsertEntry (e : Entry) (b : Bucket) : Bucket :=
  set_log (aofbuf b ++ [InsertRecord e]) (aof b) b.

Definition Bucket_WriteDeleteEntry (e : Entry) (b : Bucket) : Bucket :=
  set_log (aofbuf b ++ [DeleteRecord (k e)]) (aof b) b.

Definition Bucket_WriteAOFBuf (b : Bucket) : Bucket :=
  set_log [] (aof b ++ aofbuf b) b.

(** Modelled from the spec: the two transaction modes ([RWMode] is declared
    outside [tx.go]). *)
Inductive RWMode : Type := MODE_READ | MODE_READ_WRITE.

#[global] Instance RWMode_eq_dec : EqDecision RWMode.
Proof. solve_decision. Defined.

(** The part of [StitchDB] the transaction reads: [t.db.open]. *)
Record StitchDB : Type := mkStitchDB { db_open : bool }.

(** [RbCtx]: a key bound to [None] is a key bound to [nil] in the Go map. *)
Record RbCtx : Type := mkRbCtx {
  backward : gmap string (option Entry);
  forward : gmap string (option Entry);
  backwardIndex : gmap string (option Index)
}.

(** [Tx].  The Go fields [db] and [bkt] are pointers; the transaction is
    modelled together with the objects it points to, so that a method is a
    function from [Tx] to [Tx].  [bkt] may be [nil]. *)
Record Tx : Type := mkTx {
  db : StitchDB;
  bkt : option Bucket;
  mode : RWMode;
  rbctx : RbCtx
}.

Definition set_bkt (b : Bucket) (tx : Tx) : Tx :=
  {| db := db tx; bkt := Some b; mode := mode tx; rbctx := rbctx tx |}.

Definition set_rbctx (c : RbCtx) (tx : Tx) : Tx :=
  {| db := db tx; bkt := bkt tx; mode := mode tx; rbctx := c |}.

Definition set_mode (m : RWMode) (tx : Tx) : Tx :=
  {| db := db tx; bkt := bkt tx; mode := m; rbctx := rbctx tx |}.

(** [errors.New(msg)]: an error is its message. *)
Definition error : Type := string.

(** ** Outcomes

    A method either returns a value in a final state, or the goroutine
    stops: a [nil] bucket is dereferenced, or a lock that is not held is
    released. *)
Inductive outcome (A : Type) : Type :=
  | Ret (a : A) (tx : Tx)
  | Crash.
Arguments Ret {A} a tx.
Arguments Crash {A}.

Definition TxM (A : Type) : Type := Tx → outcome A.

Definition andThen {A B : Type} (m : TxM A) (f : A → TxM B) : TxM B :=
  λ tx, match m tx with
        | Ret a tx' => f a tx'
        | Crash => Crash
        end.

Definition final_bucket {A : Type} (o : outcome A) : option Bucket :=
  match o with
  | Ret _ tx => bkt tx
  | Crash => None
  end.

Definition returned {A : Type} (o : outcome A) : option A :=
  match o with
  | Ret a _ => Some a
  | Crash => None
  end.

(** ** The transaction *)

(** [NewTx]: the three maps of the context start empty. *)
Definition NewTx (d : StitchDB) (b : option Bucket) (m : RWMode) : Tx :=
  {| db := d; bkt := b; mode := m;
     rbctx := {| backward := ∅; forward := ∅; backwardIndex := ∅ |} |}.

(** The guard shared by [Get], [Set], [Delete], [CreateIndex], [DropIndex]:
    [!t.db.open || t.bkt == nil || !t.bkt.open]. *)
Definition invalid_state (tx : Tx) : bool :=
  negb (db_open (db tx))
  || match bkt tx with
     | None => true
     | Some b => negb (open b)
     end.

Definition Tx_lock (tx : Tx) : option Tx :=
  match bkt tx with
  | None => None
  | Some b =>
      match mode tx with
      | MODE_READ => (λ l, set_bkt (set_bktlock l b) tx) <$> RLock (bktlock b)
      | MODE_READ_WRITE => (λ l, set_bkt (set_bktlock l b) tx) <$> Lock (bktlock b)
      end
  end.

Definition Tx_unlock : TxM unit := λ tx,
  match bkt tx with
  | None => Crash
  | Some b =>
      let released :=
        match mode tx with
        | MODE_READ => RUnlock (bktlock b)
        | MODE_READ_WRITE => Unlock (bktlock b)
        end in
      match released with
      | Some l => Ret tt (set_bkt (set_bktlock l b) tx)
      | None => Crash
      end
  end.

(** The error messages of [tx.go]. *)
Definition ErrDbClosed : error := "error: db is closed".
Definition ErrCommitReadOnly : error := "error: cannot commit read only transaction".
Definition ErrGetInvalidState : error := "error: cannot get entry; db is in invalid state".
Definition ErrSetInvalidState : error := "error: cannot set entry; db is in invalid state".
Definition ErrDeleteInvalidState : error := "error: cannot delete entry; db is in invalid state".
Definition ErrCreateInvalidState : error := "error: cannot create index; db is in invalid state".
Definition ErrIndexExists : error := "error: cannot create index; index already exists".
Definition ErrCouldNotCreate : error := "error: could not create index".
Definition ErrDropInvalidState : error := "error: cannot drop index; db is in invalid state".
Definition ErrIndexMissing : error := "error: cannot drop; index does not exist".

(** One iteration of the loop of [RollbackTx] over [t.rbctx.backward]. *)
Definition rollback_entry (b : Bucket) (ke : string * option Entry) : Bucket :=
  match ke.2 with
  | None =>
      let b1 := (Bucket_delete (Entry_of_key ke.1) b).2 in
      set_indexes (Tree_Delete (Entry_of_key ke.1) <$> indexes b1) b1
  | Some entry =>
      let b1 := (Bucket_insert entry b).2 in
      set_indexes (Tree_ReplaceOrInsert entry <$> indexes b1) b1
  end.

(** [RollbackTx].  Go visits the keys of a map in an unspecified order:
    [sched] is the order in which the loop visits [t.rbctx.backward], any
    permutation of the bindings of that map (see [visits]). *)
Definition Tx_RollbackTx_in (sched : list (string * option Entry)) : TxM (option error) :=
  λ tx,
  match bkt tx with
  | None => Crash
  | Some b =>
      andThen Tx_unlock (λ _, Ret None) (set_bkt (foldl rollback_entry b sched) tx)
  end.

(** One iteration of the loop of [CommitTx] over [t.rbctx.forward]. *)
Definition commit_entry (b : Bucket) (ke : string * option Entry) : Bucket :=
  match ke.2 with
  | None => Bucket_WriteDeleteEntry (Entry_of_key ke.1) b
  | Some entry => Bucket_WriteInsertEntry entry b
  end.

(** [CommitTx], with the order [sched] of the loop over [t.rbctx.forward]. *)
Definition Tx_CommitTx_in (sched : list (string * option Entry)) : TxM (option error) :=
  λ tx,
  if negb (db_open (db tx)) then Ret (Some ErrDbClosed) tx
  else match mode tx with
       | MODE_READ => Ret (Some ErrCommitReadOnly) tx
       | MODE_READ_WRITE =>
           match bkt tx with
           | None => Crash
           | Some b =>
               andThen Tx_unlock (λ _, Ret None)
                 (set_bkt (Bucket_WriteAOFBuf (foldl commit_entry b sched)) tx)
           end
       end.

(** [sched] is an order in which a [range] loop may visit the map [m]. *)
Definition visits {V : Type} (m : gmap string V) (sched : list (string * V)) : Prop :=
  sched ≡ₚ map_to_list m.

(** The two methods with one particular order of visit. *)
Definition Tx_RollbackTx : TxM (option error) :=
  λ tx, Tx_RollbackTx_in (map_to_list (backward (rbctx tx))) tx.

Definition Tx_CommitTx : TxM (option error) :=
  λ tx, Tx_CommitTx_in (map_to_list (forward (rbctx tx))) tx.

(** [Set]. *)
Definition Tx_Set (e : Entry) : TxM (option Entry * option error) := λ tx,
  if invalid_state tx then Ret (None, Some ErrSetInvalidState) tx
  else match bkt tx with
       | None => Crash
       | Some b =>
           let '(pres, b1) := Bucket_insert e b in
           let c := rbctx tx in
           let c1 := {| backward := <[k e := pres]> (backward c);
                        forward := forward c;
                        backwardIndex := backwardIndex c |} in
           let c2 := {| backward := backward c1;
                        forward := <[k e := Some e]> (forward c1);
                        backwardIndex := backwardIndex c1 |} in
           Ret (pres, None) (set_rbctx c2 (set_bkt b1 tx))
       end.

(** [Delete]. *)
Definition Tx_Delete (e : Entry) : TxM (option Entry * option error) := λ tx,
  if invalid_state tx then Ret (None, Some ErrDeleteInvalidState) tx
  else match bkt tx with
       | None => Crash
       | Some b =>
           let '(dres, b1) := Bucket_delete e b in
           match dres with
           | Some _ =>
               let c := rbctx tx in
               let c1 := {| backward := <[k e := dres]> (backward c);
                            forward := forward c;
                            backwardIndex := backwardIndex c |} in
               let c2 := {| backward := backward c1;
                            forward := <[k e := None]> (forward c1);
                            backwardIndex := backwardIndex c1 |} in
               Ret (dres, None) (set_rbctx c2 (set_bkt b1 tx))
           | None => Ret (dres, None) (set_bkt b1 tx)
           end
       end.

(** [Indexes]: the loop appends the name of every binding of the registry
    it visits, in the order [sched] of the visit; a [nil] bucket is
    dereferenced. *)
Definition Tx_Indexes_in (sched : list (string * Index)) : TxM (list string * option error) :=
  λ tx,
  match bkt tx with
  | None => Crash
  | Some _ => Ret (foldl (λ idxs ki, idxs ++ [ki.1])%list [] sched, None) tx
  end.

Definition Tx_Indexes : TxM (list string * option error) := λ tx,
  match bkt tx with
  | None => Crash
  | Some b => Tx_Indexes_in (map_to_list (indexes b)) tx
  end.

(** [DropIndex]. *)
Definition Tx_DropIndex (pat : string) : TxM (option error) := λ tx,
  if invalid_state tx then Ret (Some ErrDropInvalidState) tx
  else match bkt tx with
       | None => Crash
       | Some b =>
           match indexes b !! pat with
           | None => Ret (Some ErrIndexMissing) tx
           | Some index =>
               let c := rbctx tx in
               let c1 := {| backward := backward c;
                            forward := forward c;
                            backwardIndex := <[pat := Some index]> (backwardIndex c) |} in
               Ret None (set_rbctx c1 (set_bkt (set_indexes (delete pat (indexes b)) b) tx))
           end
       end.

Section Collaborators.

(** The methods of [Entry] and [Index] that [tx.go] calls and that are
    declared elsewhere.  [NewIndex] may fail ([None]); [build] fills the
    tree of an index from the bucket. *)
Variable Entry_IsExpired : Entry → bool.
Variable Entry_IsInvalid : Entry → bool.
Variable NewIndex : string → Bucket → option Index.
Variable Index_build : Index → Bucket → Index.

(** [Get]. *)
Definition Tx_Get (e : Entry) : TxM (option Entry * option error) := λ tx,
  if invalid_state tx then Ret (None, Some ErrGetInvalidState) tx
  else match bkt tx with
       | None => Crash
       | Some b =>
           match Bucket_get e b with
           | Some res =>
               if Entry_IsExpired res || Entry_IsInvalid res
               then Ret (None, None) tx
               else Ret (Some res, None) tx
           | None => Ret (None, None) tx
           end
       end.

(** [CreateIndex]. *)
Definition Tx_CreateIndex (pat : string) : TxM (option error) := λ tx,
  if invalid_state tx then Ret (Some ErrCreateInvalidState) tx
  else match bkt tx with
       | None => Crash
       | Some b =>
           match indexes b !! pat with
           | Some _ => Ret (Some ErrIndexExists) tx
           | None =>
               match NewIndex pat b with
               | None => Ret (Some ErrCouldNotCreate) tx
               | Some index =>
                   let b1 := set_indexes (<[pat := index]> (indexes b)) b in
                   let c := rbctx tx in
                   let c1 := {| backward := backward c;
                                forward := forward c;
                                backwardIndex := <[pat := None]> (backwardIndex c) |} in
                   let b2 := set_indexes (<[pat := Index_build index b1]> (indexes b1)) b1 in
                   Ret None (set_rbctx c1 (set_bkt b2 tx))
               end
           end
       end.

End Collaborators.

(** ** Walks and the methods that are not written yet *)

(** Modelled from the spec: [Ascend] and [Descend] of the ordered tree
    [t.bkt.data] belong to the tree library.  The tree is ordered on the
    key of its entries (strings compare byte by byte); [Ascend] calls the
    iterator on the entries in increasing order until the iterator answers
    [false], [Descend] does so in decreasing order. *)
Definition Entry_le (e1 e2 : Entry) : Prop := String.leb (k e1) (k e2) = true.

#[global] Instance Entry_le_dec : RelDecision Entry_le.
Proof. intros e1 e2. unfold Entry_le. apply _. Defined.

Definition ascending (d : gmap string Entry) : list Entry :=
  merge_sort Entry_le (map_to_list d).*2.

Definition descending (d : gmap string Entry) : list Entry :=
  reverse (ascending d).

(** The visitor [f func(e *Entry) bool] is a closure: what it captures and
    updates is the accumulator [A], what it answers is the boolean. *)
Definition visitor (A : Type) : Type := Entry → A → bool * A.

Fixpoint walk {A : Type} (f : visitor A) (l : list Entry) (a : A) : A :=
  match l with
  | [] => a
  | e :: l' => let '(more, a') := f e a in if more then walk f l' a' else a'
  end.

(** [Ascend] and [Descend]: no guard on the state of the database, the
    error is always [nil]; the accumulator of the visitor is returned with
    it. *)
Definition Tx_Ascend {A : Type} (f : visitor A) (a : A) : TxM (A * option error) := λ tx,
  match bkt tx with
  | None => Crash
  | Some b => Ret (walk f (ascending (data b)) a, None) tx
  end.

Definition Tx_Descend {A : Type} (f : visitor A) (a : A) : TxM (A * option error) := λ tx,
  match bkt tx with
  | None => Crash
  | Some b => Ret (walk f (descending (data b)) a, None) tx
  end.









(** A visitor that keeps the entries it is shown and goes on as long as
    [p] holds of the entry. *)
Definition collect_while (p : Entry → bool) : visitor (list Entry) :=
  λ e acc, (p e, (acc ++ [e])%list).

(** What such a visitor has kept after a walk over [order]: all of it when
    [p] holds throughout, else the entries up to and including the first
    one of which [p] fails. *)
Definition shown_until (p : Entry → bool) (order l : list Entry) : Prop :=
  (Forall (λ e, p e = true) order ∧ l = order) ∨
  (∃ l1 e l2, order = (l1 ++ e :: l2)%list ∧ Forall (λ e, p e = true) l1 ∧
              p e = false ∧ l = (l1 ++ [e])%list).

(** ** The first version of the file

    [src/tx.go] is the skeleton of the same type: [RollbackTx] and
    [CommitTx] only release the lock (the tests of [CommitTx] on the state
    of the database and on the mode have empty bodies); the lock is the
    field [Lock] of the bucket, [bktlock] here. *)
Module Skeleton.

Definition Tx_unlock : TxM unit := λ tx,
  match bkt tx with
  | None => Crash
  | Some b =>
      let released :=
        match mode tx with
        | MODE_READ => RUnlock (bktlock b)
        | MODE_READ_WRITE => Unlock (bktlock b)
        end in
      match released with
      | Some l => Ret tt (set_bkt (set_bktlock l b) tx)
      | None => Crash
      end
  end.

Definition Tx_RollbackTx : TxM (option error) :=
  andThen Tx_unlock (λ _, Ret None).

Definition Tx_CommitTx : TxM (option error) := λ tx,
  let _ := if negb (db_open (db tx)) then tt else tt in
  let _ := match mode tx with MODE_READ_WRITE => tt | MODE_READ => tt end in
  andThen Tx_unlock (λ _, Ret None) tx.

End Skeleton.

(** ** What a reader is shown *)

Section Live.
Variable Entry_IsExpired : Entry → bool.
Variable Entry_IsInvalid : Entry → bool.

(** The entry [Get] answers when the primary index holds [o] for the key:
    none when the entry is expired or invalid. *)
Definition live (o : option Entry) : option Entry :=
  match o with
  | Some res => if Entry_IsExpired res || Entry_IsInvalid res then None else Some res
  | None => None
  end.

End Live.


(** Every entry the backward map holds is bound to its own key. *)
Definition keyed_bindings (m : gmap string (option Entry)) : Prop :=
  ∀ key e, m !! key = Some (Some e) → k e = key.

(** ** Sequences of writes *)

(** The two write calls of a transaction, and a caller that issues a list
    of them and keeps what each returned. *)
Inductive WriteOp : Type :=
  | OpSet (e : Entry)
  | OpDelete (e : Entry).

Definition op_key (o : WriteOp) : string :=
  match o with
  | OpSet e => k e
  | OpDelete e => k e
  end.

Definition Tx_write (o : WriteOp) : TxM (option Entry * option error) :=
  match o with
  | OpSet e => Tx_Set e
  | OpDelete e => Tx_Delete e
  end.

Fixpoint Tx_writes (ops : list WriteOp) : TxM (list (option Entry * option error)) :=
  match ops with
  | [] => Ret []
  | o :: ops' =>
      andThen (Tx_write o) (λ r, andThen (Tx_writes ops') (λ rs, Ret (r :: rs)))
  end.

(** ** The net effect of a sequence of writes, as the specification words it *)

(** The last [Set] or [Delete] of [ops] applied to [key]. *)
Definition last_write (key : string) (ops : list WriteOp) : option WriteOp :=
  last (filter (λ o, op_key o = key) ops).

(** The value [key] has after its last write; [pre] is its value before
    the transaction. *)
Definition net_value (key : string) (ops : list WriteOp) (pre : option Entry) : option Entry :=
  match last_write key ops with
  | Some (OpSet e) => Some e
  | Some (OpDelete _) => None
  | None => pre
  end.

Definition is_set_of (key : string) (o : WriteOp) : bool :=
  match o with
  | OpSet e => bool_decide (k e = key)
  | OpDelete _ => false
  end.

(** Whether the transaction modified [key] at all: it set it, or it
    deleted it while it was there.  A [Delete] of a key that is absent
    modifies nothing. *)
Definition modified (key : string) (ops : list WriteOp) (pre : option Entry) : bool :=
  existsb (is_set_of key) ops
  || (bool_decide (is_Some pre) && existsb (λ o, bool_decide (op_key o = key)) ops).

(** The record of the log that stands for one binding of the forward map. *)
Definition record_of (ke : string * option Entry) : LogRecord :=
  match ke.2 with
  | None => DeleteRecord ke.1
  | Some entry => InsertRecord entry
  end.

(** The records a commit owes to [key]: one insert record when the key is
    present after its last write, one delete record when it is absent, and
    nothing for a key the transaction did not modify. *)
Definition net_records (key : string) (ops : list WriteOp) (pre : option Entry) : list LogRecord :=
  if modified key ops pre then [record_of (key, net_value key ops pre)] else [].

(** The records of [key] in a log. *)
Definition records_for (key : string) (log : list LogRecord) : list LogRecord :=
  filter (λ r, record_key r = key) log.

(** ** Sample collaborators and states, for the closed examples *)

(** Modelled from the spec: an entry is expired when its expiration lies in
    the past ([now] is the reading of the clock), invalid when its validity
    flag is off; a new index starts empty and never fails to be created;
    [build] fills it with the entries of the primary index. *)
Definition IsExpired_at (now : Z) (e : Entry) : bool :=
  match expiresAt e with
  | Some ts => (ts <? now)%Z
  | None => false
  end.

Definition IsInvalid_flag (e : Entry) : bool := negb (valid e).

Definition NewIndex_empty (pat : string) (_ : Bucket) : option Index :=
  Some {| pattern := pat; t := ∅ |}.

Definition build_from_data (ind : Index) (b : Bucket) : Index :=
  {| pattern := pattern ind; t := data b |}.

Definition write_held : RWMutex := {| readers := 0; writer := true |}.
Definition read_held : RWMutex := {| readers := 1; writer := false |}.

Definition empty_bucket (l : RWMutex) : Bucket :=
  {| data := ∅; indexes := ∅; bktlock := l; open := true; aofbuf := []; aof := [] |}.

Definition open_db : StitchDB := {| db_open := true |}.
Definition closed_db : StitchDB := {| db_open := false |}.

Definition a1 : Entry := {| k := "a"; v := "1"; expiresAt := None; valid := true |}.
Definition a2 : Entry := {| k := "a"; v := "2"; expiresAt := None; valid := true |}.
Definition b1 : Entry := {| k := "b"; v := "1"; expiresAt := None; valid := true |}.
Definition stale : Entry := {| k := "a"; v := "1"; expiresAt := Some 10%Z; valid := true |}.

(** ** Scenarios *)

(** A transaction just begun on [b], database open. *)
Definition rw_tx (b : Bucket) : Tx := NewTx open_db (Some b) MODE_READ_WRITE.
Definition ro_tx (b : Bucket) : Tx := NewTx open_db (Some b) MODE_READ.

(** The calls [m], then [RollbackTx]. *)
Definition then_rollback {A : Type} (m : TxM A) : TxM (option error) :=
  andThen m (λ _, Tx_RollbackTx).

(** An open bucket with primary index [d] and one index ["x"] in step
    with it. *)
Definition indexed_bucket (d : gmap string Entry) (l : RWMutex) : Bucket :=
  {| data := d; indexes := {[ "x" := {| pattern := "x"; t := d |} ]};
     bktlock := l; open := true; aofbuf := []; aof := [] |}.

(** A transaction whose context already records writes: ["a"] was
    overwritten (it held [a1]) and ["b"] was inserted. *)
Definition written_tx (l : RWMutex) (m : RWMode) : Tx :=
  {| db := open_db;
     bkt := Some (indexed_bucket {[ "a" := a2; "b" := b1 ]} l);
     mode := m;
     rbctx := {| backward := {[ "a" := Some a1; "b" := None ]};
                 forward := {[ "a" := Some a2; "b" := Some b1 ]};
                 backwardIndex := ∅ |} |}.

(** ** Observations on outcomes *)

Definition final_state {A : Type} (o : outcome A) : option Tx :=
  match o with
  | Ret _ tx => Some tx
  | Crash => None
  end.

(** What the primary index, the registry and the backward map hold at the
    end of a run. *)
Definition final_primary {A : Type} (o : outcome A) (key : string) : option Entry :=
  b ← final_bucket o; data b !! key.

Definition final_registry {A : Type} (o : outcome A) (pat : string) : option Index :=
  b ← final_bucket o; indexes b !! pat.

Definition final_index_entry {A : Type} (o : outcome A) (pat key : string) : option Entry :=
  ind ← final_registry o pat; t ind !! key.

Definition final_backward {A : Type} (o : outcome A) (key : string) : option (option Entry) :=
  tx ← final_state o; backward (rbctx tx) !! key.

Definition final_backwardIndex {A : Type} (o : outcome A) (pat : string) : option (option Index) :=
  tx ← final_state o; backwardIndex (rbctx tx) !! pat.

Definition final_lock {A : Type} (o : outcome A) : option RWMutex :=
  bktlock <$> final_bucket o.

(** The outcome [o] with the mode of its final state replaced by [m]. *)
Definition in_mode {A : Type} (m : RWMode) (o : outcome A) : outcome A :=
  match o with
  | Ret a tx => Ret a (set_mode m tx)
  | Crash => Crash
  end.

(** ** The lock a transaction holds *)

(** [l] is held the way a transaction of mode [m] holds it, and the state
    of the lock once that transaction has released it. *)
Definition held (m : RWMode) (l : RWMutex) : Prop :=
  match m with
  | MODE_READ => 0 < readers l
  | MODE_READ_WRITE => writer l = true
  end.

Definition released (m : RWMode) (l : RWMutex) : RWMutex :=
  match m with
  | MODE_READ => {| readers := pred (readers l); writer := writer l |}
  | MODE_READ_WRITE => {| readers := readers l; writer := false |}
  end.

(** ** The invariant of a sequence of writes

    [tracks b0 m ops tx]: [tx] is what a transaction of mode [m], begun on
    the open bucket [b0], has become after the writes [ops].  The primary
    index holds the net value of every key and the forward map binds
    exactly the keys that were modified, each to its net value; lock,
    registry and log are those of [b0]. *)
Definition tracks (b0 : Bucket) (m : RWMode) (ops : list WriteOp) (tx : Tx) : Prop :=
  db_open (db tx) = true ∧ mode tx = m ∧
  ∃ b, bkt tx = Some b ∧ open b = true ∧ bktlock b = bktlock b0 ∧
       indexes b = indexes b0 ∧ aofbuf b = aofbuf b0 ∧ aof b = aof b0 ∧
       ∀ key,
         data b !! key = net_value key ops (data b0 !! key) ∧
         forward (rbctx tx) !! key =
           if modified key ops (data b0 !! key)
           then Some (net_value key ops (data b0 !! key)) else None.

(** The primary index is keyed by the key of its entries, as a tree
    ordered on [k] is. *)
Definition keyed (d : gmap string Entry) : Prop :=
  ∀ key e, d !! key = Some e → k e = key.

(** When no key is written twice, the backward map binds every modified
    key to the value it had before the transaction. *)
Definition tracks_back (b0 : Bucket) (ops : list WriteOp) (tx : Tx) : Prop :=
  ∀ key, backward (rbctx tx) !! key =
         if modified key ops (data b0 !! key) then Some (data b0 !! key) else None.

(** ** Basic facts about the model *)

Lemma set_bkt_same (tx : Tx) (b : Bucket) : bkt tx = Some b → set_bkt b tx = tx.
Proof. destruct tx; simpl; intros ->; reflexivity. Qed.

Lemma set_data_same (b : Bucket) : set_data (data b) b = b.
Proof. by destruct b. Qed.

Lemma invalid_state_false (tx : Tx) :
  invalid_state tx = false ↔
  db_open (db tx) = true ∧ ∃ b, bkt tx = Some b ∧ open b = true.
Proof.
  unfold invalid_state. destruct (db_open (db tx)), (bkt tx) as [b|]; simpl.
  - destruct (open b) eqn:E; simpl; split.
    + intros _. split; [done|]. by exists b.
    + done.
    + done.
    + intros [_ (b' & [= <-] & ?)]. congruence.
  - split; [done|]. by intros [_ (b' & ? & _)].
  - split; [done|]. by intros [? _].
  - split; [done|]. by intros [? _].
Qed.

Lemma invalid_state_set_mode (m : RWMode) (tx : Tx) :
  invalid_state (set_mode m tx) = invalid_state tx.
Proof. reflexivity. Qed.

(** The loop of [RollbackTx] changes neither the lock, nor the log, nor the
    [open] flag, nor the names of the registry. *)
Lemma rollback_loop_frame (sched : list (string * option Entry)) (b : Bucket) :
  let b' := foldl rollback_entry b sched in
  bktlock b' = bktlock b ∧ open b' = open b ∧ aofbuf b' = aofbuf b ∧
  aof b' = aof b ∧ dom (indexes b') = dom (indexes b).
Proof.
  revert b. induction sched as [|[key [e|]] sched IH]; intros b; simpl.
  - done.
  - destruct (IH (rollback_entry b (key, Some e))) as (H1 & H2 & H3 & H4 & H5).
    rewrite H1, H2, H3, H4, H5. unfold rollback_entry; simpl.
    by rewrite dom_fmap_L.
  - destruct (IH (rollback_entry b (key, None))) as (H1 & H2 & H3 & H4 & H5).
    rewrite H1, H2, H3, H4, H5. unfold rollback_entry; simpl.
    by rewrite dom_fmap_L.
Qed.

(** The loop of [CommitTx] only appends to the pending buffer, one record
    per binding it visits, in the order of the visit. *)
Lemma commit_loop_log (sched : list (string * option Entry)) (b : Bucket) :
  foldl commit_entry b sched =
  set_log (aofbuf b ++ (record_of <$> sched)) (aof b) b.
Proof.
  revert b. induction sched as [|[key [e|]] sched IH]; intros b; simpl.
  - destruct b; unfold set_log; simpl. by rewrite app_nil_r.
  - rewrite IH. unfold commit_entry, Bucket_WriteInsertEntry, set_log; simpl.
    by rewrite <- app_assoc.
  - rewrite IH. unfold commit_entry, Bucket_WriteDeleteEntry, set_log; simpl.
    by rewrite <- app_assoc.
Qed.

(** ** Sequences of writes: the tracking invariant *)

Lemma last_write_snoc (key : string) (ops : list WriteOp) (o : WriteOp) :
  last_write key (ops ++ [o]) =
  if decide (op_key o = key) then Some o else last_write key ops.
Proof.
  unfold last_write. rewrite filter_app. simpl.
  rewrite filter_cons, filter_nil. 
  destruct (decide (op_key o = key)).
  - by rewrite last_snoc.
  - by rewrite app_nil_r.
Qed.

Lemma last_write_key (key : string) (ops : list WriteOp) (o : WriteOp) :
  last_write key ops = Some o → op_key o = key.
Proof.
  unfold last_write. intros H.
  assert (o ∈ filter (λ o, op_key o = key) ops) as Hin.
  { destruct (filter (λ o, op_key o = key) ops) as [|x l] using rev_ind; [done|].
    rewrite last_snoc in H. injection H as ->. set_solver. }
  by apply list_elem_of_filter in Hin as [? _].
Qed.

Lemma last_write_None (key : string) (ops : list WriteOp) :
  last_write key ops = None ↔
  existsb (λ o, bool_decide (op_key o = key)) ops = false.
Proof.
  induction ops as [|o ops IH] using rev_ind.
  - done.
  - rewrite last_write_snoc, existsb_app. simpl. rewrite orb_false_r.
    destruct (decide (op_key o = key)) as [E|E].
    + rewrite (bool_decide_eq_true_2 _ E), orb_true_r. done.
    + rewrite (bool_decide_eq_false_2 _ E), orb_false_r. done.
Qed.

Lemma last_write_set (key : string) (ops : list WriteOp) (e : Entry) :
  last_write key ops = Some (OpSet e) → existsb (is_set_of key) ops = true.
Proof.
  induction ops as [|o ops IH] using rev_ind; [done|].
  rewrite last_write_snoc, existsb_app. simpl. rewrite orb_false_r.
  destruct (decide (op_key o = key)) as [E|E].
  - intros [= ->]. simpl in *. rewrite (bool_decide_eq_true_2 _ E).
    apply orb_true_r.
  - intros H. by rewrite (IH H).
Qed.

Lemma Tx_writes_snoc (ops : list WriteOp) (o : WriteOp) (tx : Tx) :
  Tx_writes (ops ++ [o]) tx =
  andThen (Tx_writes ops)
    (λ rs, andThen (Tx_write o) (λ r, Ret (rs ++ [r])%list)) tx.
Proof.
  revert tx. induction ops as [|o' ops IH]; intros tx; simpl.
  - unfold andThen; simpl. by destruct (Tx_write o tx).
  - unfold andThen. destruct (Tx_write o' tx) as [r tx'|]; [|done].
    specialize (IH tx'). unfold andThen in IH. rewrite IH.
    destruct (Tx_writes ops tx') as [rs tx''|]; [|done].
    by destruct (Tx_write o tx'').
Qed.

Lemma net_value_snoc (key : string) (ops : list WriteOp) (o : WriteOp) (pre : option Entry) :
  net_value key (ops ++ [o]) pre =
  if decide (op_key o = key)
  then match o with OpSet e => Some e | OpDelete _ => None end
  else net_value key ops pre.
Proof.
  unfold net_value. rewrite last_write_snoc. by destruct (decide (op_key o = key)).
Qed.

Lemma modified_snoc (key : string) (ops : list WriteOp) (o : WriteOp) (pre : option Entry) :
  modified key (ops ++ [o]) pre =
  modified key ops pre
  || (bool_decide (op_key o = key)
      && match o with OpSet _ => true | OpDelete _ => bool_decide (is_Some pre) end).
Proof.
  unfold modified. rewrite !existsb_app. simpl. rewrite !orb_false_r.
  destruct o as [e|e]; simpl;
    destruct (existsb (is_set_of key) ops), (bool_decide (is_Some pre)),
      (existsb (λ o, bool_decide (op_key o = key)) ops),
      (bool_decide (k e = key)); reflexivity.
Qed.

(** A key that holds a value although the transaction did not modify it
    still holds its value from before the transaction. *)
Lemma present_modified_or_pre (key : string) (ops : list WriteOp) (pre : option Entry) :
  is_Some (net_value key ops pre) →
  modified key ops pre = false → is_Some pre.
Proof.
  unfold net_value, modified. intros Hv Hm.
  apply orb_false_iff in Hm as [Hs Hw].
  destruct (last_write key ops) as [[e|e]|] eqn:E.
  - apply last_write_set in E. congruence.
  - by destruct Hv.
  - done.
Qed.

Lemma absent_unmodified_pre (key : string) (ops : list WriteOp) (pre : option Entry) :
  net_value key ops pre = None →
  modified key ops pre = false → pre = None.
Proof.
  unfold net_value, modified. intros Hv Hm.
  apply orb_false_iff in Hm as [Hs Hw].
  destruct pre as [p|]; [|done]. simpl in Hw.
  apply last_write_None in Hw. by rewrite Hw in Hv.
Qed.

Lemma tracks_start (b0 : Bucket) (m : RWMode) :
  open b0 = true → tracks b0 m [] (NewTx open_db (Some b0) m).
Proof.
  intros Ho. split; [done|]. split; [done|]. exists b0.
  do 6 (split; [done|]). intros key. split; [done|].
  unfold modified; simpl. by rewrite andb_false_r.
Qed.

Lemma tracks_step (b0 : Bucket) (m : RWMode) (ops : list WriteOp) (o : WriteOp) (tx : Tx) :
  tracks b0 m ops tx →
  ∃ r tx', Tx_write o tx = Ret (r, None) tx' ∧ tracks b0 m (ops ++ [o]) tx'.
Proof.
  intros (Hdb & Hm & b & Hb & Ho & Hl & Hi & Hbuf & Haof & Hkeys).
  assert (invalid_state tx = false) as Hinv.
  { apply invalid_state_false. eauto. }
  destruct o as [e|e]; simpl.
  - unfold Tx_Set. rewrite Hinv, Hb. simpl.
    eexists _, _. split; [reflexivity|].
    split; [done|]. split; [done|]. eexists. split; [reflexivity|]. simpl.
    do 5 (split; [done|]). intros key.
    rewrite net_value_snoc, modified_snoc. simpl.
    destruct (decide (k e = key)) as [E|E].
    + rewrite (bool_decide_eq_true_2 _ E), orb_true_r. subst key.
      by rewrite !lookup_insert_eq.
    + rewrite (bool_decide_eq_false_2 _ E), orb_false_r.
      rewrite !lookup_insert_ne by done. apply Hkeys.
  - unfold Tx_Delete. rewrite Hinv, Hb. simpl.
    destruct (data b !! k e) as [old|] eqn:Hold.
    + eexists _, _. split; [reflexivity|].
      split; [done|]. split; [done|]. eexists. split; [reflexivity|]. simpl.
      do 5 (split; [done|]). intros key.
      rewrite net_value_snoc, modified_snoc. simpl.
      destruct (decide (k e = key)) as [E|E].
      * rewrite (bool_decide_eq_true_2 _ E). subst key.
        rewrite lookup_delete_eq, lookup_insert_eq. split; [done|].
        destruct (Hkeys (k e)) as [Hd _]. rewrite Hold in Hd.
        destruct (modified (k e) ops (data b0 !! k e)) eqn:Hmod; [done|].
        simpl. rewrite bool_decide_eq_true_2; [done|].
        eapply present_modified_or_pre; [|done]. by rewrite <- Hd.
      * rewrite (bool_decide_eq_false_2 _ E), orb_false_r.
        rewrite lookup_delete_ne, lookup_insert_ne by done. apply Hkeys.
    + eexists _, _. split; [reflexivity|].
      split; [done|]. split; [done|]. eexists. split; [reflexivity|]. simpl.
      do 5 (split; [done|]). intros key.
      rewrite net_value_snoc, modified_snoc. simpl.
      destruct (decide (k e = key)) as [E|E].
      * rewrite (bool_decide_eq_true_2 _ E). subst key.
        rewrite lookup_delete_eq. split; [done|].
        destruct (Hkeys (k e)) as [Hd Hf]. rewrite Hold in Hd. rewrite Hf.
        destruct (modified (k e) ops (data b0 !! k e)) eqn:Hmod; simpl.
        -- by rewrite <- Hd.
        -- rewrite (absent_unmodified_pre _ _ _ (eq_sym Hd) Hmod). done.
      * rewrite (bool_decide_eq_false_2 _ E), orb_false_r.
        rewrite lookup_delete_ne by done. apply Hkeys.
Qed.

Lemma tracks_run (b0 : Bucket) (m : RWMode) (ops : list WriteOp) :
  open b0 = true →
  ∃ rs tx, Tx_writes ops (NewTx open_db (Some b0) m) = Ret rs tx ∧
           Forall (λ r, r.2 = None) rs ∧ tracks b0 m ops tx.
Proof.
  intros Ho. induction ops as [|o ops IH] using rev_ind.
  - exists [], (NewTx open_db (Some b0) m). split; [done|]. split; [constructor|].
    by apply tracks_start.
  - destruct IH as (rs & tx & Hrun & Hrs & Htr).
    destruct (tracks_step _ _ _ o _ Htr) as (r & tx' & Hw & Htr').
    exists (rs ++ [(r, None)])%list, tx'. rewrite Tx_writes_snoc. unfold andThen.
    rewrite Hrun, Hw. split; [done|]. split; [|done].
    apply Forall_app. split; [done|]. by constructor.
Qed.

Lemma modified_last_write (key : string) (ops : list WriteOp) (pre : option Entry) :
  modified key ops pre = true → is_Some (last_write key ops).
Proof.
  unfold modified. intros Hm.
  destruct (last_write key ops) eqn:E; [done|].
  apply last_write_None in E. rewrite E, andb_false_r, orb_false_r in Hm.
  apply existsb_exists in Hm as (o & Hin & Hset).
  assert (existsb (λ o, bool_decide (op_key o = key)) ops = true); [|congruence].
  apply existsb_exists. exists o. split; [done|].
  destruct o; simpl in *; done.
Qed.

(** A binding that the forward map of a tracked transaction holds for a key
    yields a record of that very key. *)
Lemma tracks_forward_key (b0 : Bucket) (m : RWMode) (ops : list WriteOp) (tx : Tx)
    (key : string) (oe : option Entry) :
  tracks b0 m ops tx →
  forward (rbctx tx) !! key = Some oe →
  record_key (record_of (key, oe)) = key.
Proof.
  intros (_ & _ & b & _ & _ & _ & _ & _ & _ & Hkeys) Hf.
  destruct (Hkeys key) as [_ Hfk]. rewrite Hf in Hfk.
  destruct (modified key ops (data b0 !! key)) eqn:Hmod; [|done].
  injection Hfk as ->. apply modified_last_write in Hmod as [o Ho].
  unfold net_value. rewrite Ho. unfold record_of; simpl.
  destruct o as [e|e]; simpl; [|done]. by apply last_write_key in Ho.
Qed.

Lemma records_for_absent (key : string) (l : list (string * option Entry)) :
  (∀ ke, ke ∈ l → record_key (record_of ke) = ke.1) →
  key ∉ l.*1 → records_for key (record_of <$> l) = [].
Proof.
  unfold records_for. induction l as [|ke l IH]; intros Hk Hnot; [done|].
  rewrite fmap_cons, filter_cons.
  rewrite fmap_cons, not_elem_of_cons in Hnot. destruct Hnot as [Hne Hnot].
  rewrite decide_False.
  - apply IH; [|done]. intros ke' Hin. apply Hk. by right.
  - rewrite Hk by left. done.
Qed.

Lemma records_for_binding (key : string) (oe : option Entry)
    (l : list (string * option Entry)) :
  (∀ ke, ke ∈ l → record_key (record_of ke) = ke.1) →
  NoDup l.*1 → (key, oe) ∈ l →
  records_for key (record_of <$> l) = [record_of (key, oe)].
Proof.
  induction l as [|ke l IH]; intros Hk Hnd Hin; [by apply elem_of_nil in Hin|].
  rewrite fmap_cons in Hnd. apply NoDup_cons in Hnd as [Hhd Hnd].
  assert (∀ ke', ke' ∈ l → record_key (record_of ke') = ke'.1) as Hk'.
  { intros ke' Hin'. apply Hk. by right. }
  unfold records_for. rewrite fmap_cons, filter_cons.
  apply elem_of_cons in Hin as [<-|Hin].
  - rewrite decide_True by (rewrite Hk by left; done).
    f_equal. by apply records_for_absent.
  - rewrite decide_False.
    + by apply IH.
    + rewrite Hk by left. intros Heq. apply Hhd. rewrite Heq.
      change key with (key, oe).1. by apply list_elem_of_fmap_2.
Qed.

Lemma Tx_unlock_write (tx : Tx) (b : Bucket) :
  bkt tx = Some b → mode tx = MODE_READ_WRITE → writer (bktlock b) = true →
  Tx_unlock tx =
  Ret tt (set_bkt (set_bktlock {| readers := readers (bktlock b); writer := false |} b) tx).
Proof. unfold Tx_unlock, Unlock. by intros -> -> ->. Qed.

Lemma Tx_unlock_read (tx : Tx) (b : Bucket) (n : nat) :
  bkt tx = Some b → mode tx = MODE_READ → readers (bktlock b) = S n →
  Tx_unlock tx =
  Ret tt (set_bkt (set_bktlock {| readers := n; writer := writer (bktlock b) |} b) tx).
Proof. unfold Tx_unlock, RUnlock. by intros -> -> ->. Qed.


(** ** Locks, modes and frames *)

Lemma Tx_unlock_held (tx : Tx) (b : Bucket) :
  bkt tx = Some b → held (mode tx) (bktlock b) →
  Tx_unlock tx = Ret tt (set_bkt (set_bktlock (released (mode tx) (bktlock b)) b) tx).
Proof.
  unfold Tx_unlock, held, released. intros -> Hh.
  destruct (mode tx).
  - unfold RUnlock. destruct (readers (bktlock b)); [lia|done].
  - unfold Unlock. by rewrite Hh.
Qed.

Lemma set_mode_back (m m' : RWMode) (tx : Tx) :
  mode tx = m → set_mode m (set_mode m' tx) = tx.
Proof. destruct tx; simpl; intros ->; reflexivity. Qed.

(** None of the four mutating calls reads [t.mode]: running one in another
    mode gives the same result and the same final state, mode apart. *)
Lemma Tx_Set_mode (m : RWMode) (e : Entry) (tx : Tx) :
  Tx_Set e (set_mode m tx) = in_mode m (Tx_Set e tx).
Proof.
  unfold Tx_Set. rewrite invalid_state_set_mode.
  destruct (invalid_state tx); [done|]. simpl. by destruct (bkt tx).
Qed.

Lemma Tx_Delete_mode (m : RWMode) (e : Entry) (tx : Tx) :
  Tx_Delete e (set_mode m tx) = in_mode m (Tx_Delete e tx).
Proof.
  unfold Tx_Delete. rewrite invalid_state_set_mode.
  destruct (invalid_state tx); [done|]. simpl.
  destruct (bkt tx) as [b|]; [|done]. simpl. by destruct (data b !! k e).
Qed.

Lemma Tx_DropIndex_mode (m : RWMode) (pat : string) (tx : Tx) :
  Tx_DropIndex pat (set_mode m tx) = in_mode m (Tx_DropIndex pat tx).
Proof.
  unfold Tx_DropIndex. rewrite invalid_state_set_mode.
  destruct (invalid_state tx); [done|]. simpl.
  destruct (bkt tx) as [b|]; [|done]. by destruct (indexes b !! pat).
Qed.

Lemma Tx_CreateIndex_mode (NewIndex : string → Bucket → option Index)
    (Index_build : Index → Bucket → Index) (m : RWMode) (pat : string) (tx : Tx) :
  Tx_CreateIndex NewIndex Index_build pat (set_mode m tx) =
  in_mode m (Tx_CreateIndex NewIndex Index_build pat tx).
Proof.
  unfold Tx_CreateIndex. rewrite invalid_state_set_mode.
  destruct (invalid_state tx); [done|]. simpl.
  destruct (bkt tx) as [b|]; [|done].
  destruct (indexes b !! pat); [done|]. by destruct (NewIndex pat b).
Qed.

(** A write leaves the registry of indexes, trees included, as it was. *)
Lemma Tx_write_keeps_indexes (o : WriteOp) (tx tx' : Tx) (r : option Entry * option error) :
  Tx_write o tx = Ret r tx' → indexes <$> bkt tx' = indexes <$> bkt tx.
Proof.
  destruct o as [e|e]; simpl.
  - unfold Tx_Set. destruct (invalid_state tx); [by intros [= _ <-]|].
    destruct (bkt tx) as [b|]; [|done]. simpl. by intros [= _ <-].
  - unfold Tx_Delete. destruct (invalid_state tx); [by intros [= _ <-]|].
    destruct (bkt tx) as [b|]; [|done]. simpl.
    destruct (data b !! k e); by intros [= _ <-].
Qed.

(** [RollbackTx] neither adds a name to the registry nor removes one. *)
Lemma Tx_RollbackTx_keeps_names (sched : list (string * option Entry)) (tx tx' : Tx)
    (r : option error) :
  Tx_RollbackTx_in sched tx = Ret r tx' →
  ∃ b b', bkt tx = Some b ∧ bkt tx' = Some b' ∧ dom (indexes b') = dom (indexes b).
Proof.
  unfold Tx_RollbackTx_in, andThen.
  destruct (bkt tx) as [b|]; [|done].
  destruct (Tx_unlock _) as [[] tx1|] eqn:Hu; [|done]. intros [= _ <-].
  destruct (rollback_loop_frame sched b) as (_ & _ & _ & _ & Hdom).
  unfold Tx_unlock in Hu. simpl in Hu.
  destruct (mode tx);
    [destruct (RUnlock _) | destruct (Unlock _)]; try done;
    injection Hu as <-; by eexists _, _.
Qed.

(** ** Rollback when no key is written twice *)

(** What the loop of [RollbackTx] leaves under a key: the value bound to
    it in the backward map, or what was there when the map does not bind
    it. *)
Lemma rollback_loop_other (key : string) (l : list (string * option Entry)) (b : Bucket) :
  (∀ key' e, (key', Some e) ∈ l → k e = key') →
  key ∉ l.*1 → data (foldl rollback_entry b l) !! key = data b !! key.
Proof.
  revert b. induction l as [|[key' oe] l IH]; intros b Hk Hnot; [done|].
  rewrite fmap_cons, not_elem_of_cons in Hnot. destruct Hnot as [Hne Hnot].
  simpl. rewrite IH; [|intros ???; eapply Hk; by right|done].
  simpl in Hne. unfold rollback_entry. destruct oe as [e|]; simpl.
  - rewrite lookup_insert_ne; [done|]. rewrite (Hk key' e) by left. done.
  - by rewrite lookup_delete_ne.
Qed.

Lemma rollback_loop_binding (key : string) (oe : option Entry)
    (l : list (string * option Entry)) (b : Bucket) :
  (∀ key' e, (key', Some e) ∈ l → k e = key') →
  NoDup l.*1 → (key, oe) ∈ l →
  data (foldl rollback_entry b l) !! key = oe.
Proof.
  revert b. induction l as [|[key' oe'] l IH]; intros b Hk Hnd Hin;
    [by apply elem_of_nil in Hin|].
  rewrite fmap_cons in Hnd. apply NoDup_cons in Hnd as [Hhd Hnd].
  assert (∀ key'' e, (key'', Some e) ∈ l → k e = key'') as Hk'.
  { intros ???. eapply Hk. by right. }
  simpl. apply elem_of_cons in Hin as [[= <- <-]|Hin].
  - rewrite rollback_loop_other by done.
    unfold rollback_entry. destruct oe as [e|]; simpl.
    + rewrite (Hk key e) by left. by rewrite lookup_insert_eq.
    + by rewrite lookup_delete_eq.
  - by apply IH.
Qed.

Lemma unwritten_key (key : string) (ops : list WriteOp) (pre : option Entry) :
  key ∉ op_key <$> ops →
  net_value key ops pre = pre ∧ modified key ops pre = false.
Proof.
  intros Hnot.
  assert (existsb (λ o, bool_decide (op_key o = key)) ops = false) as Hw.
  { apply not_true_iff_false. intros (o & Hin & Ho)%existsb_exists.
    apply bool_decide_eq_true in Ho. apply Hnot. rewrite <- Ho.
    apply list_elem_of_fmap_2. by apply list_elem_of_In. }
  split.
  - unfold net_value. by rewrite (proj2 (last_write_None key ops) Hw).
  - destruct (modified key ops pre) eqn:Hm; [|done].
    apply modified_last_write in Hm as [o Ho].
    rewrite (proj2 (last_write_None key ops) Hw) in Ho. done.
Qed.

Lemma single_writes_run (b0 : Bucket) (m : RWMode) (ops : list WriteOp) :
  open b0 = true → NoDup (op_key <$> ops) →
  ∃ rs tx, Tx_writes ops (NewTx open_db (Some b0) m) = Ret rs tx ∧
           tracks b0 m ops tx ∧ tracks_back b0 ops tx.
Proof.
  intros Ho. induction ops as [|o ops IH] using rev_ind; intros Hnd.
  - exists [], (NewTx open_db (Some b0) m). split; [done|].
    split; [by apply tracks_start|]. intros key. unfold modified; simpl.
    by rewrite andb_false_r.
  - rewrite fmap_app in Hnd. apply NoDup_app in Hnd as (Hnd & Hfresh & _).
    destruct (IH Hnd) as (rs & tx & Hrun & Htr & Hback).
    assert (op_key o ∉ op_key <$> ops) as Hnew.
    { intros Hin. apply (Hfresh _ Hin). simpl. by left. }
    destruct (tracks_step _ _ _ o _ Htr) as (r & tx' & Hw & Htr').
    exists (rs ++ [(r, None)])%list, tx'. rewrite Tx_writes_snoc. unfold andThen.
    rewrite Hrun, Hw. split; [done|]. split; [done|].
    destruct Htr as (Hdb & Hm & b & Hb & Hob & _ & _ & _ & _ & Hkeys).
    assert (invalid_state tx = false) as Hinv.
    { apply invalid_state_false. eauto. }
    destruct (unwritten_key _ _ (data b0 !! op_key o) Hnew) as [Hnet Hmod].
    destruct (Hkeys (op_key o)) as [Hd _]. rewrite Hnet in Hd.
    intros key. rewrite modified_snoc. specialize (Hback key).
    destruct o as [e|e]; simpl in *.
    + unfold Tx_Set in Hw. rewrite Hinv, Hb in Hw. simpl in Hw.
      injection Hw as _ <-. simpl.
      destruct (decide (k e = key)) as [E|E].
      * rewrite (bool_decide_eq_true_2 _ E), orb_true_r. subst key.
        by rewrite lookup_insert_eq, Hd.
      * rewrite (bool_decide_eq_false_2 _ E), orb_false_r.
        by rewrite lookup_insert_ne.
    + unfold Tx_Delete in Hw. rewrite Hinv, Hb in Hw. simpl in Hw.
      destruct (data b !! k e) as [old|] eqn:Hold.
      * injection Hw as _ <-. simpl.
        destruct (decide (k e = key)) as [E|E].
        -- rewrite (bool_decide_eq_true_2 _ E). subst key.
           rewrite lookup_insert_eq, <- Hd. simpl.
           by rewrite orb_true_r.
        -- rewrite (bool_decide_eq_false_2 _ E), orb_false_r.
           by rewrite lookup_insert_ne.
      * injection Hw as _ <-. simpl.
        destruct (decide (k e = key)) as [E|E].
        -- subst key. rewrite Hback, Hmod, <- Hd. simpl.
           by rewrite andb_false_r.
        -- by rewrite (bool_decide_eq_false_2 _ E), orb_false_r.
Qed.

(** X1.  Rollback is exact when no key is written twice: after any
    sequence of [Set] and [Delete] calls on pairwise distinct keys,
    [RollbackTx], whatever the order in which it visits the backward map,
    returns without error with the primary index of before the transaction
    and with the lock released. *)
Lemma rollback_restores_single_writes (b0 : Bucket) (m : RWMode) (ops : list WriteOp) :
  open b0 = true → held m (bktlock b0) → keyed (data b0) →
  NoDup (op_key <$> ops) →
  ∃ rs tx1,
    Tx_writes ops (NewTx open_db (Some b0) m) = Ret rs tx1 ∧
    ∀ sched, visits (backward (rbctx tx1)) sched →
      ∃ tx2 b2, Tx_RollbackTx_in sched tx1 = Ret None tx2 ∧ bkt tx2 = Some b2 ∧
                data b2 = data b0 ∧ bktlock b2 = released m (bktlock b0).
Proof.
  intros Ho Hheld Hkeyed Hnd.
  destruct (single_writes_run b0 m ops Ho Hnd) as (rs & tx1 & Hrun & Htr & Hback).
  exists rs, tx1. split; [done|]. intros sched Hsched.
  destruct Htr as (Hdb & Hm & b & Hb & Hob & Hl & _ & _ & _ & Hkeys).
  unfold Tx_RollbackTx_in, andThen. rewrite Hb.
  destruct (rollback_loop_frame sched b) as (Hl' & _).
  erewrite Tx_unlock_held;
    [|reflexivity|by simpl; rewrite Hl', Hl, Hm].
  eexists _, _. split; [reflexivity|]. split; [reflexivity|]. simpl.
  split; [|by rewrite Hl', Hl, Hm].
  assert (∀ key' e, (key', Some e) ∈ sched → k e = key') as Hfaith.
  { intros key' e Hin. rewrite Hsched in Hin. apply elem_of_map_to_list in Hin.
    rewrite Hback in Hin. destruct (modified key' ops (data b0 !! key')); [|done].
    injection Hin as Hin. by apply Hkeyed. }
  apply map_eq. intros key. specialize (Hback key).
  destruct (modified key ops (data b0 !! key)) eqn:Hmod.
  - apply rollback_loop_binding; [done| |].
    + rewrite Hsched. apply NoDup_fst_map_to_list.
    + rewrite Hsched. by apply elem_of_map_to_list.
  - rewrite rollback_loop_other; [|done|].
    + destruct (Hkeys key) as [Hd _]. rewrite Hd.
      destruct (last_write key ops) as [[e|e]|] eqn:Hlw.
      * apply last_write_set in Hlw. unfold modified in Hmod.
        by rewrite Hlw in Hmod.
      * assert (net_value key ops (data b0 !! key) = None) as Hnone.
        { unfold net_value. by rewrite Hlw. }
        by rewrite Hnone, (absent_unmodified_pre _ _ _ Hnone Hmod).
      * unfold net_value. by rewrite Hlw.
    + rewrite Hsched. intros Hin.
      apply list_elem_of_fmap in Hin as ([key' oe'] & -> & Hin).
      apply elem_of_map_to_list in Hin. simpl in Hback. congruence.
Qed.

(** * The claims *)

(** C1.  Rollback does not restore the primary index when a key is written
    twice.  On an empty bucket, a ReadWrite transaction sets ["a"] to [a1],
    then to [a2], and rolls back: [RollbackTx] returns no error and the
    primary index binds ["a"] to [a1], a key it did not hold before the
    transaction began. *)
Theorem rollback_after_two_sets :
  let tx0 := rw_tx (empty_bucket write_held) in
  final_primary (Ret tt tx0) "a" = None ∧
  returned (then_rollback (Tx_writes [OpSet a1; OpSet a2]) tx0) = Some None ∧
  final_primary (then_rollback (Tx_writes [OpSet a1; OpSet a2]) tx0) "a" = Some a1.
Proof. vm_compute. done. Qed.

(** C2.  The backward map is rewritten by every write.  On an empty bucket
    the first [Set] of ["a"] records the absent marker; a second [Set], or
    a [Delete], of the same key replaces it by the entry the first [Set]
    wrote. *)
Theorem backward_rewritten_by_later_write :
  let tx0 := rw_tx (empty_bucket write_held) in
  final_backward (Tx_writes [OpSet a1] tx0) "a" = Some None ∧
  final_backward (Tx_writes [OpSet a1; OpSet a2] tx0) "a" = Some (Some a1) ∧
  final_backward (Tx_writes [OpSet a1; OpDelete a1] tx0) "a" = Some (Some a1).
Proof. vm_compute. done. Qed.

(** C3.  Commit applies the net effect of the writes.  A ReadWrite
    transaction begun on an open bucket [b0] issues any sequence [ops] of
    [Set] and [Delete] calls: every call returns without error, and
    [CommitTx], whatever the order in which it visits the forward map,
    returns without error, empties the pending buffer and appends to the
    log the records [recs] such that, for every key, the primary index
    holds what the last [Set] or [Delete] of that key left ([net_value]) and
    the records of that key in [recs] are one insert record of that entry
    when the key is present, one delete record when it is absent, and no
    record when no call modified the key ([net_records]). *)
Theorem commit_applies_last_write (b0 : Bucket) (ops : list WriteOp) :
  open b0 = true → writer (bktlock b0) = true →
  ∃ rs tx1,
    Tx_writes ops (rw_tx b0) = Ret rs tx1 ∧
    Forall (λ r, r.2 = None) rs ∧
    ∀ sched, visits (forward (rbctx tx1)) sched →
      ∃ tx2 b2 recs,
        Tx_CommitTx_in sched tx1 = Ret None tx2 ∧ bkt tx2 = Some b2 ∧
        aofbuf b2 = [] ∧ aof b2 = (aof b0 ++ aofbuf b0 ++ recs)%list ∧
        ∀ key,
          data b2 !! key = net_value key ops (data b0 !! key) ∧
          records_for key recs = net_records key ops (data b0 !! key).
Proof.
  intros Ho Hw.
  destruct (tracks_run b0 MODE_READ_WRITE ops Ho) as (rs & tx1 & Hrun & Hrs & Htr).
  exists rs, tx1. do 2 (split; [done|]). intros sched Hsched.
  pose proof Htr as (Hdb & Hm & b & Hb & Hob & Hl & Hi & Hbuf & Haof & Hkeys).
  unfold Tx_CommitTx_in. rewrite Hdb, Hm, Hb. simpl.
  rewrite commit_loop_log. unfold andThen.
  erewrite Tx_unlock_write; [|reflexivity|done|by simpl; rewrite Hl].
  eexists _, _, (record_of <$> sched). split; [reflexivity|]. simpl.
  split; [reflexivity|]. split; [done|].
  split; [by rewrite Haof, Hbuf|].
  intros key. destruct (Hkeys key) as [Hd Hf]. split; [done|].
  assert (∀ ke, ke ∈ sched → record_key (record_of ke) = ke.1) as Hfaith.
  { intros [key' oe'] Hin. rewrite Hsched in Hin.
    apply elem_of_map_to_list in Hin. by eapply tracks_forward_key. }
  unfold net_records.
  destruct (modified key ops (data b0 !! key)).
  - apply records_for_binding; [done| |].
    + rewrite Hsched. apply NoDup_fst_map_to_list.
    + rewrite Hsched. by apply elem_of_map_to_list.
  - apply records_for_absent; [done|].
    rewrite Hsched. intros Hin.
    apply list_elem_of_fmap in Hin as ([key' oe'] & -> & Hin).
    apply elem_of_map_to_list in Hin. simpl in Hf. congruence.
Qed.

Lemma commit_applies_last_write_witness :
  let b0 := empty_bucket write_held in
  let ops := [OpSet a1; OpSet a2; OpSet b1; OpDelete b1] in
  open b0 = true ∧ writer (bktlock b0) = true ∧
  ∃ rs tx1,
    Tx_writes ops (rw_tx b0) = Ret rs tx1 ∧
    Forall (λ r, r.2 = None) rs ∧
    ∀ sched, visits (forward (rbctx tx1)) sched →
      ∃ tx2 b2 recs,
        Tx_CommitTx_in sched tx1 = Ret None tx2 ∧ bkt tx2 = Some b2 ∧
        aofbuf b2 = [] ∧ aof b2 = (aof b0 ++ aofbuf b0 ++ recs)%list ∧
        ∀ key,
          data b2 !! key = net_value key ops (data b0 !! key) ∧
          records_for key recs = net_records key ops (data b0 !! key).
Proof.
  split; [reflexivity|]. split; [reflexivity|].
  apply (commit_applies_last_write (empty_bucket write_held)
           [OpSet a1; OpSet a2; OpSet b1; OpDelete b1]); reflexivity.
Defined.

(** C4.  Rollback leaves the registry of indexes as the transaction left
    it.  [CreateIndex "x"] records the absent marker in the backward index
    map and [RollbackTx] returns with ["x"] still registered; [DropIndex
    "x"] records the dropped index and [RollbackTx] returns with ["x"]
    still missing. *)
Theorem rollback_keeps_registry_changes :
  let tx0 := rw_tx (empty_bucket write_held) in
  let create := Tx_CreateIndex NewIndex_empty build_from_data "x" in
  let tx1 := rw_tx (indexed_bucket ∅ write_held) in
  final_registry (Ret tt tx0) "x" = None ∧
  returned (create tx0) = Some None ∧
  final_backwardIndex (create tx0) "x" = Some None ∧
  returned (then_rollback create tx0) = Some None ∧
  final_registry (then_rollback create tx0) "x" = Some {| pattern := "x"; t := ∅ |} ∧
  final_registry (Ret tt tx1) "x" = Some {| pattern := "x"; t := ∅ |} ∧
  returned (Tx_DropIndex "x" tx1) = Some None ∧
  final_backwardIndex (Tx_DropIndex "x" tx1) "x" = Some (Some {| pattern := "x"; t := ∅ |}) ∧
  returned (then_rollback (Tx_DropIndex "x") tx1) = Some None ∧
  final_registry (then_rollback (Tx_DropIndex "x") tx1) "x" = None.
Proof. vm_compute. done. Qed.

(** C5.  The write path does not maintain the secondary indexes.  With an
    index ["x"] registered, [Set a1] puts [a1] in the primary index and
    leaves the tree of ["x"] without it; [Delete a1] removes ["a"] from the
    primary index and leaves [a1] in the tree of ["x"]. *)
Theorem writes_bypass_indexes :
  let tx0 := rw_tx (indexed_bucket ∅ write_held) in
  let tx1 := rw_tx (indexed_bucket {[ "a" := a1 ]} write_held) in
  returned (Tx_Set a1 tx0) = Some (None, None) ∧
  final_primary (Tx_Set a1 tx0) "a" = Some a1 ∧
  final_index_entry (Tx_Set a1 tx0) "x" "a" = None ∧
  final_index_entry (Ret tt tx1) "x" "a" = Some a1 ∧
  returned (Tx_Delete a1 tx1) = Some (Some a1, None) ∧
  final_primary (Tx_Delete a1 tx1) "a" = None ∧
  final_index_entry (Tx_Delete a1 tx1) "x" "a" = Some a1.
Proof. vm_compute. done. Qed.

(** C6, as stated, fails: a [CommitTx] that returns an error returns with
    the lock still held, in exclusive mode when the database is closed and
    in shared mode when the transaction is read-only. *)
Lemma failed_commit_keeps_lock :
  let tx_closed := NewTx closed_db (Some (empty_bucket write_held)) MODE_READ_WRITE in
  let tx_ro := ro_tx (empty_bucket read_held) in
  held (mode tx_closed) write_held ∧
  returned (Tx_CommitTx tx_closed) = Some (Some ErrDbClosed) ∧
  final_lock (Tx_CommitTx tx_closed) = Some write_held ∧
  final_lock (Tx_CommitTx tx_closed) ≠ Some (released (mode tx_closed) write_held) ∧
  held (mode tx_ro) read_held ∧
  returned (Tx_CommitTx tx_ro) = Some (Some ErrCommitReadOnly) ∧
  final_lock (Tx_CommitTx tx_ro) = Some read_held ∧
  final_lock (Tx_CommitTx tx_ro) ≠ Some (released (mode tx_ro) read_held).
Proof. vm_compute. repeat split; try done; lia. Qed.

(** C6, amended.  For a transaction that holds the lock of its bucket in
    its mode: [RollbackTx] always returns without error, with the lock
    released once and the transaction otherwise as its loop left it.  With
    the database open, [CommitTx] in ReadWrite mode does the same, and
    [CommitTx] in ReadOnly mode returns its error and changes nothing, the
    lock included: the lock is still held for the [RollbackTx] that ends
    the transaction, which releases it once. *)
Theorem lock_release_discipline (tx : Tx) (b : Bucket) (sched : list (string * option Entry)) :
  bkt tx = Some b → held (mode tx) (bktlock b) →
  (∃ b', Tx_RollbackTx_in sched tx = Ret None (set_bkt b' tx) ∧
         bktlock b' = released (mode tx) (bktlock b)) ∧
  (db_open (db tx) = true →
   match mode tx with
   | MODE_READ_WRITE =>
       ∃ b', Tx_CommitTx_in sched tx = Ret None (set_bkt b' tx) ∧
             bktlock b' = released (mode tx) (bktlock b)
   | MODE_READ =>
       ∃ b', andThen (Tx_CommitTx_in sched) (λ _, Tx_RollbackTx_in sched) tx
             = Ret None (set_bkt b' tx) ∧
             Tx_CommitTx_in sched tx = Ret (Some ErrCommitReadOnly) tx ∧
             bktlock b' = released (mode tx) (bktlock b)
   end).
Proof.
  intros Hb Hh.
  assert (∃ b', Tx_RollbackTx_in sched tx = Ret None (set_bkt b' tx) ∧
                bktlock b' = released (mode tx) (bktlock b)) as Hroll.
  { unfold Tx_RollbackTx_in, andThen. rewrite Hb.
    destruct (rollback_loop_frame sched b) as (Hl & _).
    erewrite Tx_unlock_held; [|reflexivity|by simpl; rewrite Hl].
    eexists. split; [reflexivity|]. simpl. by rewrite Hl. }
  split; [exact Hroll|]. intros Hdb.
  destruct (mode tx) eqn:Hm.
  - destruct Hroll as (b' & Hr & Hl). exists b'.
    assert (Tx_CommitTx_in sched tx = Ret (Some ErrCommitReadOnly) tx) as Hc.
    { unfold Tx_CommitTx_in. by rewrite Hdb, Hm. }
    unfold andThen. rewrite Hc. done.
  - unfold Tx_CommitTx_in, andThen. rewrite Hdb, Hm. simpl.
    rewrite Hb, commit_loop_log.
    erewrite Tx_unlock_held; [|reflexivity|by simpl; rewrite Hm].
    eexists. split; [reflexivity|]. simpl. by rewrite Hm.
Qed.

Lemma lock_release_discipline_witness :
  let tx := ro_tx (empty_bucket read_held) in
  bkt tx = Some (empty_bucket read_held) ∧
  held (mode tx) (bktlock (empty_bucket read_held)) ∧
  (∃ b', Tx_RollbackTx_in [] tx = Ret None (set_bkt b' tx) ∧
         bktlock b' = {| readers := 0; writer := false |}) ∧
  Tx_CommitTx_in [] tx = Ret (Some ErrCommitReadOnly) tx.
Proof.
  simpl. split; [reflexivity|]. split; [lia|].
  destruct (lock_release_discipline (ro_tx (empty_bucket read_held))
              (empty_bucket read_held) [] eq_refl (le_n 1)) as [Hr Hc].
  split; [exact Hr|].
  destruct (Hc eq_refl) as (b' & _ & Hcommit & _). exact Hcommit.
Defined.

(** C7, as stated, fails: a transaction in ReadOnly mode can have written,
    and its rollback then rewrites the primary index.  After [Set a1] and
    [Set a2] in ReadOnly mode the index binds ["a"] to [a2]; [RollbackTx]
    leaves it bound to [a1]; before the transaction it was unbound. *)
Lemma readonly_rollback_rewrites_data :
  let tx0 := ro_tx (empty_bucket read_held) in
  let writes := Tx_writes [OpSet a1; OpSet a2] in
  mode tx0 = MODE_READ ∧
  mode <$> final_state (writes tx0) = Some MODE_READ ∧
  final_primary (Ret tt tx0) "a" = None ∧
  final_primary (writes tx0) "a" = Some a2 ∧
  returned (then_rollback writes tx0) = Some None ∧
  final_primary (then_rollback writes tx0) "a" = Some a1 ∧
  final_primary (then_rollback writes tx0) "a" ≠ final_primary (writes tx0) "a" ∧
  final_primary (then_rollback writes tx0) "a" ≠ final_primary (Ret tt tx0) "a".
Proof. vm_compute. repeat split; done. Qed.

(** C7, amended.  In ReadOnly mode with the database open, [CommitTx]
    returns the error "cannot commit read only transaction" and changes
    nothing.  [RollbackTx] on a ReadOnly transaction whose backward map is
    empty (no write was recorded) only releases the shared lock: the final
    state is the initial one with one reader less. *)
Theorem readonly_commit_and_rollback (tx : Tx) (sched : list (string * option Entry)) :
  mode tx = MODE_READ → db_open (db tx) = true →
  Tx_CommitTx_in sched tx = Ret (Some ErrCommitReadOnly) tx ∧
  ∀ b n, bkt tx = Some b → readers (bktlock b) = S n →
         backward (rbctx tx) = ∅ → visits (backward (rbctx tx)) sched →
         Tx_RollbackTx_in sched tx =
         Ret None (set_bkt (set_bktlock {| readers := n; writer := writer (bktlock b) |} b) tx).
Proof.
  intros Hm Hdb. split.
  - unfold Tx_CommitTx_in. by rewrite Hdb, Hm.
  - intros b n Hb Hr He Hs. unfold visits in Hs.
    rewrite He, map_to_list_empty in Hs. apply Permutation_nil_r in Hs. subst sched.
    unfold Tx_RollbackTx_in, andThen. rewrite Hb. simpl.
    rewrite (set_bkt_same _ _ Hb).
    by rewrite (Tx_unlock_read tx b n Hb Hm Hr).
Qed.

Lemma readonly_commit_and_rollback_witness :
  let tx := ro_tx (empty_bucket read_held) in
  mode tx = MODE_READ ∧ db_open (db tx) = true ∧
  Tx_CommitTx_in [] tx = Ret (Some ErrCommitReadOnly) tx ∧
  Tx_RollbackTx_in [] tx =
  Ret None (set_bkt (set_bktlock {| readers := 0; writer := false |}
                       (empty_bucket read_held)) tx).
Proof.
  simpl. split; [reflexivity|]. split; [reflexivity|].
  destruct (readonly_commit_and_rollback (ro_tx (empty_bucket read_held)) []
              eq_refl eq_refl) as [Hc Hr].
  split; [exact Hc|].
  apply (Hr (empty_bucket read_held) 0); try reflexivity.
  unfold visits. vm_compute. constructor.
Defined.

Section Claims_on_collaborators.

Variable Entry_IsExpired : Entry → bool.
Variable Entry_IsInvalid : Entry → bool.
Variable NewIndex : string → Bucket → option Index.
Variable Index_build : Index → Bucket → Index.

(** C8.  [Get] hides a stale entry.  When the primary index holds for the
    key of [e] an entry [res] that is expired or invalid, [Get] returns no
    entry and leaves the transaction, its bucket and so the primary index,
    unchanged: [res] is still there.  With database and bucket open the
    error is [nil] as well: "not found". *)
Theorem Get_hides_stale_entry (tx : Tx) (b : Bucket) (e res : Entry) :
  bkt tx = Some b → data b !! k e = Some res →
  Entry_IsExpired res = true ∨ Entry_IsInvalid res = true →
  ∃ err, Tx_Get Entry_IsExpired Entry_IsInvalid e tx = Ret (None, err) tx ∧
         (invalid_state tx = false → err = None).
Proof.
  intros Hb Hres Hstale. unfold Tx_Get.
  destruct (invalid_state tx); [by eexists|].
  rewrite Hb. unfold Bucket_get. rewrite Hres.
  assert (Entry_IsExpired res || Entry_IsInvalid res = true) as ->.
  { destruct Hstale as [-> | ->]; [done|apply orb_true_r]. }
  by eexists.
Qed.

(** C9.  A [Delete] of a key that the primary index does not hold returns
    no entry and leaves the whole transaction unchanged, its backward and
    forward maps included.  With database and bucket open the error is
    [nil]. *)
Theorem Delete_of_absent_key (tx : Tx) (e : Entry) :
  (∀ b, bkt tx = Some b → data b !! k e = None) →
  ∃ err, Tx_Delete e tx = Ret (None, err) tx ∧
         (invalid_state tx = false → err = None).
Proof.
  intros Habs. unfold Tx_Delete.
  destruct (invalid_state tx) eqn:Hinv; [by eexists|].
  apply invalid_state_false in Hinv as (_ & b & Hb & _).
  rewrite Hb. unfold Bucket_delete. rewrite (Habs b Hb).
  rewrite delete_id by auto. rewrite set_data_same, (set_bkt_same _ _ Hb).
  by eexists.
Qed.

(** C10.  The mutating calls do not look at the mode.  On a ReadOnly
    transaction with database and bucket open: [Set] returns the previous
    entry and no error, and the primary index holds the new entry;
    [Delete] returns the removed entry and no error, and the key is gone;
    [CreateIndex] of a free name, when [NewIndex] succeeds, returns no error
    and registers the built index; [DropIndex] of a registered name returns
    no error and removes it.  Each call behaves as on the same transaction
    in ReadWrite mode: same result, same final state, mode apart. *)
Theorem writes_ignore_mode (tx : Tx) (b : Bucket) (e : Entry) (pat : string) :
  mode tx = MODE_READ → db_open (db tx) = true → bkt tx = Some b → open b = true →
  (∃ tx', Tx_Set e tx = Ret (data b !! k e, None) tx' ∧
          bkt tx' = Some (set_data (<[k e := e]> (data b)) b)) ∧
  (∃ tx', Tx_Delete e tx = Ret (data b !! k e, None) tx' ∧
          bkt tx' = Some (set_data (delete (k e) (data b)) b)) ∧
  (∀ index, indexes b !! pat = None → NewIndex pat b = Some index →
     ∃ tx' b', Tx_CreateIndex NewIndex Index_build pat tx = Ret None tx' ∧
               bkt tx' = Some b' ∧ data b' = data b ∧
               indexes b' =
               <[pat := Index_build index (set_indexes (<[pat := index]> (indexes b)) b)]>
                 (indexes b)) ∧
  (∀ index, indexes b !! pat = Some index →
     ∃ tx', Tx_DropIndex pat tx = Ret None tx' ∧
            bkt tx' = Some (set_indexes (delete pat (indexes b)) b)) ∧
  Tx_Set e tx = in_mode MODE_READ (Tx_Set e (set_mode MODE_READ_WRITE tx)) ∧
  Tx_Delete e tx = in_mode MODE_READ (Tx_Delete e (set_mode MODE_READ_WRITE tx)) ∧
  Tx_CreateIndex NewIndex Index_build pat tx =
    in_mode MODE_READ (Tx_CreateIndex NewIndex Index_build pat (set_mode MODE_READ_WRITE tx)) ∧
  Tx_DropIndex pat tx = in_mode MODE_READ (Tx_DropIndex pat (set_mode MODE_READ_WRITE tx)).
Proof.
  intros Hm Hdb Hb Ho.
  assert (invalid_state tx = false) as Hinv.
  { apply invalid_state_false. eauto. }
  split; [|split; [|split; [|split]]].
  - unfold Tx_Set. rewrite Hinv, Hb. simpl. by eexists.
  - unfold Tx_Delete. rewrite Hinv, Hb. simpl.
    destruct (data b !! k e); by eexists.
  - intros index Hfree Hnew. unfold Tx_CreateIndex.
    rewrite Hinv, Hb, Hfree, Hnew. eexists _, _.
    split; [reflexivity|]. split; [reflexivity|]. simpl.
    split; [done|]. by rewrite insert_insert_eq.
  - intros index Hreg. unfold Tx_DropIndex. rewrite Hinv, Hb, Hreg. by eexists.
  - rewrite <- (set_mode_back MODE_READ MODE_READ_WRITE tx Hm) at 1.
    repeat split.
    + apply Tx_Set_mode.
    + rewrite <- (set_mode_back MODE_READ MODE_READ_WRITE tx Hm) at 1.
      apply Tx_Delete_mode.
    + rewrite <- (set_mode_back MODE_READ MODE_READ_WRITE tx Hm) at 1.
      apply Tx_CreateIndex_mode.
    + rewrite <- (set_mode_back MODE_READ MODE_READ_WRITE tx Hm) at 1.
      apply Tx_DropIndex_mode.
Qed.

End Claims_on_collaborators.

Lemma Get_hides_stale_entry_witness :
  let b := indexed_bucket {[ "a" := stale ]} read_held in
  bkt (ro_tx b) = Some b ∧ data b !! k (Entry_of_key "a") = Some stale ∧
  (IsExpired_at 20 stale = true ∨ IsInvalid_flag stale = true) ∧
  ∃ err, Tx_Get (IsExpired_at 20) IsInvalid_flag (Entry_of_key "a") (ro_tx b)
         = Ret (None, err) (ro_tx b) ∧
         (invalid_state (ro_tx b) = false → err = None).
Proof.
  simpl. split; [reflexivity|]. split; [reflexivity|].
  split; [left; reflexivity|].
  apply (Get_hides_stale_entry (IsExpired_at 20) IsInvalid_flag
           (ro_tx (indexed_bucket {[ "a" := stale ]} read_held))
           (indexed_bucket {[ "a" := stale ]} read_held)
           (Entry_of_key "a") stale);
    [reflexivity | reflexivity | left; reflexivity].
Defined.

Lemma Delete_of_absent_key_witness :
  let tx := rw_tx (indexed_bucket {[ "a" := a1 ]} write_held) in
  (∀ b, bkt tx = Some b → data b !! k b1 = None) ∧
  ∃ err, Tx_Delete b1 tx = Ret (None, err) tx ∧
         (invalid_state tx = false → err = None).
Proof.
  simpl.
  assert (∀ b, bkt (rw_tx (indexed_bucket {[ "a" := a1 ]} write_held)) = Some b →
               data b !! k b1 = None) as Habs.
  { intros b [= <-]. reflexivity. }
  split; [exact Habs|].
  exact (Delete_of_absent_key (rw_tx (indexed_bucket {[ "a" := a1 ]} write_held)) b1 Habs).
Defined.

Lemma writes_ignore_mode_witness :
  let b := empty_bucket read_held in
  mode (ro_tx b) = MODE_READ ∧ db_open (db (ro_tx b)) = true ∧
  bkt (ro_tx b) = Some b ∧ open b = true ∧
  (∃ tx', Tx_Set a1 (ro_tx b) = Ret (None, None) tx' ∧
          bkt tx' = Some (set_data {[ "a" := a1 ]} b)) ∧
  Tx_Set a1 (ro_tx b) = in_mode MODE_READ (Tx_Set a1 (rw_tx b)).
Proof.
  simpl. do 4 (split; [reflexivity|]).
  destruct (writes_ignore_mode NewIndex_empty build_from_data
              (ro_tx (empty_bucket read_held)) (empty_bucket read_held) a1 "x"
              eq_refl eq_refl eq_refl eq_refl)
    as (HSet & _ & _ & _ & HSetm & _).
  split; [exact HSet | exact HSetm].
Defined.

(** * Further properties of the transaction *)

(** ** Helper facts *)

Lemma invalid_state_true (tx : Tx) :
  invalid_state tx = true ↔
  db_open (db tx) = false ∨ bkt tx = None ∨ ∃ b, bkt tx = Some b ∧ open b = false.
Proof.
  unfold invalid_state. destruct (db_open (db tx)), (bkt tx) as [b|]; simpl.
  - destruct (open b) eqn:E; simpl; split; try done.
    + intros [?|[?|(b' & [= <-] & ?)]]; congruence.
    + intros _. right. right. by exists b.
  - split; [|done]. intros _. right. by left.
  - split; [|done]. intros _. by left.
  - split; [|done]. intros _. by left.
Qed.

(** A write returns what the key held just before it. *)
Lemma tracks_step_result (b0 : Bucket) (m : RWMode) (ops : list WriteOp) (o : WriteOp) (tx : Tx) :
  tracks b0 m ops tx →
  ∃ tx', Tx_write o tx
         = Ret (net_value (op_key o) ops (data b0 !! op_key o), None) tx' ∧
         tracks b0 m (ops ++ [o]) tx'.
Proof.
  intros Htr. destruct (tracks_step _ _ _ o _ Htr) as (r & tx' & Hw & Htr').
  exists tx'. split; [|done]. rewrite Hw. f_equal. f_equal.
  destruct Htr as (Hdb & Hm & b & Hb & Ho & _ & _ & _ & _ & Hkeys).
  assert (invalid_state tx = false) as Hinv.
  { apply invalid_state_false. eauto. }
  destruct (Hkeys (op_key o)) as [Hd _]. rewrite <- Hd.
  destruct o as [e|e]; simpl in *.
  - unfold Tx_Set in Hw. rewrite Hinv, Hb in Hw. simpl in Hw. by injection Hw as ->.
  - unfold Tx_Delete in Hw. rewrite Hinv, Hb in Hw. simpl in Hw.
    destruct (data b !! k e); by injection Hw as ->.
Qed.

Lemma Indexes_loop (sched : list (string * Index)) (acc : list string) :
  foldl (λ idxs ki, idxs ++ [ki.1])%list acc sched = (acc ++ sched.*1)%list.
Proof.
  revert acc. induction sched as [|ki sched IH]; intros acc; simpl.
  - by rewrite app_nil_r.
  - rewrite IH. by rewrite <- app_assoc.
Qed.






(** What [RollbackTx] leaves alone when it returns. *)
Lemma rollback_returns (tx tx' : Tx) (r : option error)
    (sched : list (string * option Entry)) :
  Tx_RollbackTx_in sched tx = Ret r tx' →
  r = None ∧ db tx' = db tx ∧ mode tx' = mode tx ∧ rbctx tx' = rbctx tx ∧
  ∃ b b', bkt tx = Some b ∧ bkt tx' = Some b' ∧
          aof b' = aof b ∧ aofbuf b' = aofbuf b ∧ open b' = open b ∧
          held (mode tx) (bktlock b) ∧
          bktlock b' = released (mode tx) (bktlock b).
Proof.
  unfold Tx_RollbackTx_in, andThen.
  destruct (bkt tx) as [b|]; [|done].
  destruct (Tx_unlock _) as [[] tx1|] eqn:Hu; [|done]. intros [= <- <-].
  destruct (rollback_loop_frame sched b) as (Hl & Hopen & Hbuf & Haof & Hdom).
  unfold Tx_unlock in Hu. simpl in Hu.
  destruct (mode tx) eqn:Hm.
  - unfold RUnlock in Hu. rewrite Hl in Hu.
    destruct (readers (bktlock b)) as [|n] eqn:Hr; [done|].
    injection Hu as <-. simpl. do 4 (split; [done|]).
    exists b. eexists. do 2 (split; [reflexivity|]). simpl.
    do 3 (split; [done|]). rewrite Hr. split; [lia|done].
  - unfold Unlock in Hu. rewrite Hl in Hu.
    destruct (writer (bktlock b)) eqn:Hw; [|done].
    injection Hu as <-. simpl. do 4 (split; [done|]).
    exists b. eexists. do 2 (split; [reflexivity|]). simpl.
    by do 4 (split; [done|]).
Qed.

#[local] Instance Entry_le_total : Total Entry_le.
Proof. intros e1 e2. apply String.leb_total. Qed.

Lemma walk_collect_all (l acc : list Entry) :
  walk (collect_while (λ _, true)) l acc = (acc ++ l)%list.
Proof.
  revert acc. induction l as [|e l IH]; intros acc; simpl.
  - by rewrite app_nil_r.
  - rewrite IH. by rewrite <- app_assoc.
Qed.

Lemma walk_collect_while (p : Entry → bool) (l : list Entry) :
  shown_until p l (walk (collect_while p) l []).
Proof.
  assert (∀ acc,
    (Forall (λ e, p e = true) l ∧ walk (collect_while p) l acc = (acc ++ l)%list) ∨
    (∃ l1 e l2, l = (l1 ++ e :: l2)%list ∧ Forall (λ e, p e = true) l1 ∧ p e = false ∧
                walk (collect_while p) l acc = (acc ++ l1 ++ [e])%list)) as Hgen.
  { induction l as [|e l IH]; intros acc; simpl.
    - left. split; [constructor|]. by rewrite app_nil_r.
    - destruct (p e) eqn:Hp.
      + destruct (IH (acc ++ [e])%list)
          as [[Hall Hw]|(l1 & e' & l2 & -> & Hall & Hp' & Hw)].
        * left. split; [by constructor|]. rewrite Hw. by rewrite <- app_assoc.
        * right. exists (e :: l1), e', l2. split; [done|]. split; [by constructor|].
          split; [done|]. rewrite Hw. by rewrite <- app_assoc.
      + right. exists [], e, l. split; [done|]. split; [constructor|]. done. }
  destruct (Hgen []) as [[Hall Hw]|(l1 & e & l2 & Hl & Hall & Hp & Hw)].
  - left. by rewrite Hw.
  - right. exists l1, e, l2. by rewrite Hw.
Qed.

Lemma ascending_elem (d : gmap string Entry) (e : Entry) :
  e ∈ ascending d ↔ ∃ key, d !! key = Some e.
Proof.
  unfold ascending. rewrite merge_sort_Permutation, list_elem_of_fmap. split.
  - intros ([key e'] & -> & Hin). exists key. by apply elem_of_map_to_list.
  - intros [key Hin]. exists (key, e). split; [done|]. by apply elem_of_map_to_list.
Qed.

(** ** Writes and reads *)

Lemma rollback_restores_single_writes_witness :
  let b0 := indexed_bucket {[ "a" := a1 ]} write_held in
  let ops := [OpSet a2; OpSet b1] in
  open b0 = true ∧ held MODE_READ_WRITE (bktlock b0) ∧ keyed (data b0) ∧
  NoDup (op_key <$> ops) ∧
  ∃ rs tx1,
    Tx_writes ops (NewTx open_db (Some b0) MODE_READ_WRITE) = Ret rs tx1 ∧
    ∀ sched, visits (backward (rbctx tx1)) sched →
      ∃ tx2 b2, Tx_RollbackTx_in sched tx1 = Ret None tx2 ∧ bkt tx2 = Some b2 ∧
                data b2 = data b0 ∧ bktlock b2 = released MODE_READ_WRITE (bktlock b0).
Proof.
  assert (keyed (data (indexed_bucket {[ "a" := a1 ]} write_held))) as Hk.
  { intros key e. simpl. intros [<- <-]%lookup_singleton_Some. reflexivity. }
  assert (NoDup (op_key <$> [OpSet a2; OpSet b1])) as Hnd.
  { apply (bool_decide_unpack _). vm_compute. exact I. }
  split; [reflexivity|]. split; [reflexivity|]. split; [exact Hk|]. split; [exact Hnd|].
  exact (rollback_restores_single_writes (indexed_bucket {[ "a" := a1 ]} write_held)
           MODE_READ_WRITE [OpSet a2; OpSet b1] eq_refl eq_refl Hk Hnd).
Defined.

Section Properties_with_collaborators.

Variable Entry_IsExpired : Entry → bool.
Variable Entry_IsInvalid : Entry → bool.
Variable NewIndex : string → Bucket → option Index.
Variable Index_build : Index → Bucket → Index.

(** X2.  The guard.  When the database is closed, or the transaction has
    no bucket, or its bucket is closed, [Get], [Set], [Delete],
    [CreateIndex] and [DropIndex] each return their own "invalid state"
    error, return no entry, and leave the transaction and its bucket
    unchanged. *)
Theorem invalid_state_rejects_calls (tx : Tx) (e : Entry) (pat : string) :
  db_open (db tx) = false ∨ bkt tx = None ∨ (∃ b, bkt tx = Some b ∧ open b = false) →
  Tx_Get Entry_IsExpired Entry_IsInvalid e tx = Ret (None, Some ErrGetInvalidState) tx ∧
  Tx_Set e tx = Ret (None, Some ErrSetInvalidState) tx ∧
  Tx_Delete e tx = Ret (None, Some ErrDeleteInvalidState) tx ∧
  Tx_CreateIndex NewIndex Index_build pat tx = Ret (Some ErrCreateInvalidState) tx ∧
  Tx_DropIndex pat tx = Ret (Some ErrDropInvalidState) tx.
Proof.
  intros H%invalid_state_true.
  unfold Tx_Get, Tx_Set, Tx_Delete, Tx_CreateIndex, Tx_DropIndex.
  by rewrite H.
Qed.

(** X3.  What a write returns.  In a transaction begun on an open bucket,
    after any writes [ops], a further [Set] or [Delete] returns no error
    and the entry its key held just before the call, earlier writes of the
    transaction included: the entry of the last [Set] of that key, nothing
    after a [Delete], the entry of before the transaction when the key was
    not written. *)
Theorem writes_return_previous_value (b0 : Bucket) (m : RWMode) (ops : list WriteOp)
    (o : WriteOp) :
  open b0 = true →
  ∃ rs tx,
    Tx_writes (ops ++ [o]) (NewTx open_db (Some b0) m)
    = Ret (rs ++ [(net_value (op_key o) ops (data b0 !! op_key o), None)])%list tx ∧
    length rs = length ops.
Proof.
  intros Ho.
  assert (∀ ops', ∃ rs tx, Tx_writes ops' (NewTx open_db (Some b0) m) = Ret rs tx ∧
                           length rs = length ops' ∧ tracks b0 m ops' tx) as Hrun.
  { induction ops' as [|o' ops' IH] using rev_ind.
    - exists [], (NewTx open_db (Some b0) m). split; [done|]. split; [done|].
      by apply tracks_start.
    - destruct IH as (rs & tx & Hrun & Hlen & Htr).
      destruct (tracks_step_result _ _ _ o' _ Htr) as (tx' & Hw & Htr').
      eexists _, tx'. rewrite Tx_writes_snoc. unfold andThen. rewrite Hrun, Hw.
      split; [reflexivity|]. split; [|done]. rewrite !length_app. simpl. lia. }
  destruct (Hrun ops) as (rs & tx & Hr & Hlen & Htr).
  destruct (tracks_step_result _ _ _ o _ Htr) as (tx' & Hw & _).
  exists rs, tx'. rewrite Tx_writes_snoc. unfold andThen. by rewrite Hr, Hw.
Qed.

(** X4.  A transaction reads its own writes.  After any writes [ops] in a
    transaction begun on an open bucket, [Get] returns no error and the
    value the key has after its last write, or of before the transaction
    when it was not written, unless that entry is expired or invalid, in
    which case it returns no entry; [Get] changes nothing. *)
Theorem Get_after_writes (b0 : Bucket) (m : RWMode) (ops : list WriteOp) (e : Entry) :
  open b0 = true →
  ∃ rs tx,
    Tx_writes ops (NewTx open_db (Some b0) m) = Ret rs tx ∧
    Tx_Get Entry_IsExpired Entry_IsInvalid e tx
    = Ret (live Entry_IsExpired Entry_IsInvalid
             (net_value (k e) ops (data b0 !! k e)), None) tx.
Proof.
  intros Ho. destruct (tracks_run b0 m ops Ho) as (rs & tx & Hrun & _ & Htr).
  exists rs, tx. split; [done|].
  destruct Htr as (Hdb & Hm & b & Hb & Hob & _ & _ & _ & _ & Hkeys).
  assert (invalid_state tx = false) as Hinv.
  { apply invalid_state_false. eauto. }
  unfold Tx_Get, Bucket_get. rewrite Hinv, Hb.
  destruct (Hkeys (k e)) as [-> _].
  destruct (net_value (k e) ops (data b0 !! k e)) as [res|]; simpl; [|done].
  by destruct (Entry_IsExpired res || Entry_IsInvalid res).
Qed.

(** ** The registry of indexes *)

(** X5.  Failures of the index calls.  With database and bucket open:
    [CreateIndex] of a registered name returns "index already exists";
    [CreateIndex] returns "could not create index" when [NewIndex] fails;
    [DropIndex] of a name that is not registered returns "index does not
    exist"; each leaves the transaction unchanged.  Hence a second
    [CreateIndex] of the same name fails, and so does a second
    [DropIndex]. *)
Theorem index_calls_fail_cleanly (tx : Tx) (b : Bucket) (pat : string) :
  db_open (db tx) = true → bkt tx = Some b → open b = true →
  (is_Some (indexes b !! pat) →
   Tx_CreateIndex NewIndex Index_build pat tx = Ret (Some ErrIndexExists) tx) ∧
  (indexes b !! pat = None → NewIndex pat b = None →
   Tx_CreateIndex NewIndex Index_build pat tx = Ret (Some ErrCouldNotCreate) tx) ∧
  (indexes b !! pat = None →
   Tx_DropIndex pat tx = Ret (Some ErrIndexMissing) tx) ∧
  (∀ index tx1, indexes b !! pat = None → NewIndex pat b = Some index →
     Tx_CreateIndex NewIndex Index_build pat tx = Ret None tx1 →
     Tx_CreateIndex NewIndex Index_build pat tx1 = Ret (Some ErrIndexExists) tx1) ∧
  (∀ tx1, is_Some (indexes b !! pat) →
     Tx_DropIndex pat tx = Ret None tx1 →
     Tx_DropIndex pat tx1 = Ret (Some ErrIndexMissing) tx1).
Proof.
  intros Hdb Hb Ho.
  assert (invalid_state tx = false) as Hinv.
  { apply invalid_state_false. eauto. }
  split; [|split; [|split; [|split]]].
  - intros [ind Hind]. unfold Tx_CreateIndex. by rewrite Hinv, Hb, Hind.
  - intros Hfree Hnew. unfold Tx_CreateIndex. by rewrite Hinv, Hb, Hfree, Hnew.
  - intros Hfree. unfold Tx_DropIndex. by rewrite Hinv, Hb, Hfree.
  - intros index tx1 Hfree Hnew. unfold Tx_CreateIndex at 1.
    rewrite Hinv, Hb, Hfree, Hnew. intros [= <-].
    unfold Tx_CreateIndex, invalid_state. simpl. rewrite Hdb, Ho. simpl.
    by rewrite lookup_insert_eq.
  - intros tx1 [ind Hind]. unfold Tx_DropIndex at 1.
    rewrite Hinv, Hb, Hind. intros [= <-].
    unfold Tx_DropIndex, invalid_state. simpl. rewrite Hdb, Ho. simpl.
    by rewrite lookup_delete_eq.
Qed.

(** X6.  [CreateIndex] then [DropIndex] of a free name, with database and
    bucket open and [NewIndex] succeeding: both return no error, the bucket
    is exactly what it was, and the backward index map binds the name to
    the index that was built and dropped; the backward and forward maps of
    entries are unchanged. *)
Theorem create_then_drop (tx : Tx) (b : Bucket) (pat : string) (index : Index) :
  db_open (db tx) = true → bkt tx = Some b → open b = true →
  indexes b !! pat = None → NewIndex pat b = Some index →
  ∃ tx2 built,
    andThen (Tx_CreateIndex NewIndex Index_build pat) (λ _, Tx_DropIndex pat) tx
    = Ret None tx2 ∧
    bkt tx2 = Some b ∧
    built = Index_build index (set_indexes (<[pat := index]> (indexes b)) b) ∧
    backwardIndex (rbctx tx2) = <[pat := Some built]> (backwardIndex (rbctx tx)) ∧
    backward (rbctx tx2) = backward (rbctx tx) ∧
    forward (rbctx tx2) = forward (rbctx tx).
Proof.
  intros Hdb Hb Ho Hfree Hnew.
  assert (invalid_state tx = false) as Hinv.
  { apply invalid_state_false. eauto. }
  unfold andThen, Tx_CreateIndex. rewrite Hinv, Hb, Hfree, Hnew.
  unfold Tx_DropIndex, invalid_state. simpl. rewrite Hdb, Ho. simpl.
  rewrite insert_insert_eq, lookup_insert_eq. simpl.
  eexists _, _. split; [reflexivity|]. simpl.
  split; [|split; [reflexivity|split; [|done]]].
  - rewrite delete_insert_eq, delete_id by done. by destruct b.
  - by rewrite insert_insert_eq.
Qed.

(** X7.  [DropIndex] then [CreateIndex] of a registered name, with database
    and bucket open and [NewIndex] succeeding: both return no error, the
    primary index is unchanged, the name is bound to the index built anew,
    and the backward index map binds the name to [nil]: the index that was
    dropped is no longer recorded. *)
Theorem drop_then_create (tx : Tx) (b : Bucket) (pat : string) (old index : Index) :
  db_open (db tx) = true → bkt tx = Some b → open b = true →
  indexes b !! pat = Some old →
  NewIndex pat (set_indexes (delete pat (indexes b)) b) = Some index →
  ∃ tx2 b2 built,
    andThen (Tx_DropIndex pat) (λ _, Tx_CreateIndex NewIndex Index_build pat) tx
    = Ret None tx2 ∧
    bkt tx2 = Some b2 ∧ data b2 = data b ∧
    indexes b2 = <[pat := built]> (indexes b) ∧
    built = Index_build index (set_indexes (<[pat := index]> (indexes b)) b) ∧
    backwardIndex (rbctx tx2) = <[pat := None]> (backwardIndex (rbctx tx)).
Proof.
  intros Hdb Hb Ho Hold Hnew.
  assert (invalid_state tx = false) as Hinv.
  { apply invalid_state_false. eauto. }
  unfold andThen, Tx_DropIndex. rewrite Hinv, Hb, Hold.
  unfold Tx_CreateIndex, invalid_state. simpl. rewrite Hdb, Ho. simpl.
  rewrite lookup_delete_eq, Hnew. simpl.
  eexists _, _, _. split; [reflexivity|]. simpl.
  split; [reflexivity|]. simpl. split; [done|].
  rewrite !insert_insert_eq, !insert_delete_eq.
  split; [reflexivity|]. split; [|done].
  reflexivity.
Qed.

(** X17.  [Ascend] and [Descend] show what [Get] hides.  For an entry of
    the primary index that is expired or invalid, or when the database or
    the bucket is closed, [Get] returns no entry, while [Ascend] and
    [Descend], which have neither the guard nor the filter, return no
    error and show that entry to the visitor. *)
Theorem Ascend_shows_what_Get_hides (tx : Tx) (b : Bucket) (e res : Entry) :
  bkt tx = Some b → data b !! k e = Some res →
  Entry_IsExpired res = true ∨ Entry_IsInvalid res = true ∨ invalid_state tx = true →
  ∃ err l,
    Tx_Get Entry_IsExpired Entry_IsInvalid e tx = Ret (None, err) tx ∧
    Tx_Ascend (collect_while (λ _, true)) [] tx = Ret (l, None) tx ∧ res ∈ l ∧
    Tx_Descend (collect_while (λ _, true)) [] tx = Ret (reverse l, None) tx.
Proof.
  intros Hb Hres Hhid. exists (if invalid_state tx then Some ErrGetInvalidState else None).
  exists (ascending (data b)). split; [|split; [|split]].
  - unfold Tx_Get. destruct (invalid_state tx) eqn:Hinv; [done|].
    rewrite Hb. unfold Bucket_get. rewrite Hres.
    destruct Hhid as [-> | [-> | ?]]; [done| by rewrite orb_true_r | done].
  - unfold Tx_Ascend. by rewrite Hb, walk_collect_all.
  - apply ascending_elem. by exists (k e).
  - unfold Tx_Descend, descending. by rewrite Hb, walk_collect_all.
Qed.


End Properties_with_collaborators.

Lemma invalid_state_rejects_calls_witness :
  let tx := NewTx closed_db (Some (empty_bucket write_held)) MODE_READ_WRITE in
  (db_open (db tx) = false ∨ bkt tx = None ∨ (∃ b, bkt tx = Some b ∧ open b = false)) ∧
  Tx_Get (IsExpired_at 20) IsInvalid_flag a1 tx = Ret (None, Some ErrGetInvalidState) tx ∧
  Tx_Set a1 tx = Ret (None, Some ErrSetInvalidState) tx ∧
  Tx_Delete a1 tx = Ret (None, Some ErrDeleteInvalidState) tx ∧
  Tx_CreateIndex NewIndex_empty build_from_data "x" tx
  = Ret (Some ErrCreateInvalidState) tx ∧
  Tx_DropIndex "x" tx = Ret (Some ErrDropInvalidState) tx.
Proof.
  simpl. split; [left; reflexivity|].
  exact (invalid_state_rejects_calls (IsExpired_at 20) IsInvalid_flag
           NewIndex_empty build_from_data
           (NewTx closed_db (Some (empty_bucket write_held)) MODE_READ_WRITE)
           a1 "x" (or_introl eq_refl)).
Defined.

Lemma writes_return_previous_value_witness :
  let b0 := indexed_bucket {[ "a" := a1 ]} write_held in
  open b0 = true ∧
  ∃ rs tx,
    Tx_writes ([OpSet a2] ++ [OpDelete a1]) (NewTx open_db (Some b0) MODE_READ_WRITE)
    = Ret (rs ++ [(Some a2, None)])%list tx ∧
    length rs = 1.
Proof.
  simpl. split; [reflexivity|].
  exact (writes_return_previous_value (indexed_bucket {[ "a" := a1 ]} write_held)
           MODE_READ_WRITE [OpSet a2] (OpDelete a1) eq_refl).
Defined.

Lemma Get_after_writes_witness :
  let b0 := indexed_bucket {[ "a" := a1 ]} write_held in
  open b0 = true ∧
  ∃ rs tx,
    Tx_writes [OpSet a2; OpDelete b1] (NewTx open_db (Some b0) MODE_READ) = Ret rs tx ∧
    Tx_Get (IsExpired_at 20) IsInvalid_flag (Entry_of_key "a") tx
    = Ret (Some a2, None) tx.
Proof.
  simpl. split; [reflexivity|].
  exact (Get_after_writes (IsExpired_at 20) IsInvalid_flag
           (indexed_bucket {[ "a" := a1 ]} write_held) MODE_READ
           [OpSet a2; OpDelete b1] (Entry_of_key "a") eq_refl).
Defined.

Lemma index_calls_fail_cleanly_witness :
  let b := indexed_bucket ∅ write_held in
  db_open (db (rw_tx b)) = true ∧ bkt (rw_tx b) = Some b ∧ open b = true ∧
  Tx_CreateIndex NewIndex_empty build_from_data "x" (rw_tx b)
  = Ret (Some ErrIndexExists) (rw_tx b) ∧
  Tx_DropIndex "y" (rw_tx b) = Ret (Some ErrIndexMissing) (rw_tx b).
Proof.
  simpl. do 3 (split; [reflexivity|]). split.
  - destruct (index_calls_fail_cleanly NewIndex_empty build_from_data
                (rw_tx (indexed_bucket ∅ write_held)) (indexed_bucket ∅ write_held)
                "x" eq_refl eq_refl eq_refl) as (Hexists & _).
    apply Hexists. eexists. reflexivity.
  - destruct (index_calls_fail_cleanly NewIndex_empty build_from_data
                (rw_tx (indexed_bucket ∅ write_held)) (indexed_bucket ∅ write_held)
                "y" eq_refl eq_refl eq_refl) as (_ & _ & Hmissing & _).
    apply Hmissing. reflexivity.
Defined.

Lemma create_then_drop_witness :
  let b := empty_bucket write_held in
  let index := {| pattern := "x"; t := ∅ |} in
  db_open (db (rw_tx b)) = true ∧ bkt (rw_tx b) = Some b ∧ open b = true ∧
  indexes b !! "x" = None ∧ NewIndex_empty "x" b = Some index ∧
  ∃ tx2 built,
    andThen (Tx_CreateIndex NewIndex_empty build_from_data "x")
      (λ _, Tx_DropIndex "x") (rw_tx b) = Ret None tx2 ∧
    bkt tx2 = Some b ∧
    built = build_from_data index (set_indexes (<["x" := index]> (indexes b)) b) ∧
    backwardIndex (rbctx tx2) = <["x" := Some built]> (backwardIndex (rbctx (rw_tx b))) ∧
    backward (rbctx tx2) = backward (rbctx (rw_tx b)) ∧
    forward (rbctx tx2) = forward (rbctx (rw_tx b)).
Proof.
  simpl. do 5 (split; [reflexivity|]).
  exact (create_then_drop NewIndex_empty build_from_data
           (rw_tx (empty_bucket write_held)) (empty_bucket write_held) "x"
           {| pattern := "x"; t := ∅ |} eq_refl eq_refl eq_refl eq_refl eq_refl).
Defined.

Lemma drop_then_create_witness :
  let b := indexed_bucket {[ "a" := a1 ]} write_held in
  let old := {| pattern := "x"; t := {[ "a" := a1 ]} |} in
  let index := {| pattern := "x"; t := ∅ |} in
  db_open (db (rw_tx b)) = true ∧ bkt (rw_tx b) = Some b ∧ open b = true ∧
  indexes b !! "x" = Some old ∧
  NewIndex_empty "x" (set_indexes (delete "x" (indexes b)) b) = Some index ∧
  ∃ tx2 b2 built,
    andThen (Tx_DropIndex "x")
      (λ _, Tx_CreateIndex NewIndex_empty build_from_data "x") (rw_tx b) = Ret None tx2 ∧
    bkt tx2 = Some b2 ∧ data b2 = data b ∧
    indexes b2 = <["x" := built]> (indexes b) ∧
    built = build_from_data index (set_indexes (<["x" := index]> (indexes b)) b) ∧
    backwardIndex (rbctx tx2) = <["x" := None]> (backwardIndex (rbctx (rw_tx b))).
Proof.
  simpl. do 5 (split; [reflexivity|]).
  exact (drop_then_create NewIndex_empty build_from_data
           (rw_tx (indexed_bucket {[ "a" := a1 ]} write_held))
           (indexed_bucket {[ "a" := a1 ]} write_held) "x"
           {| pattern := "x"; t := {[ "a" := a1 ]} |} {| pattern := "x"; t := ∅ |}
           eq_refl eq_refl eq_refl eq_refl eq_refl).
Defined.

Lemma Ascend_shows_what_Get_hides_witness :
  let b := indexed_bucket {[ "a" := stale ]} read_held in
  bkt (ro_tx b) = Some b ∧ data b !! k (Entry_of_key "a") = Some stale ∧
  (IsExpired_at 20 stale = true ∨ IsInvalid_flag stale = true
   ∨ invalid_state (ro_tx b) = true) ∧
  ∃ err l,
    Tx_Get (IsExpired_at 20) IsInvalid_flag (Entry_of_key "a") (ro_tx b)
    = Ret (None, err) (ro_tx b) ∧
    Tx_Ascend (collect_while (λ _, true)) [] (ro_tx b) = Ret (l, None) (ro_tx b) ∧
    stale ∈ l ∧
    Tx_Descend (collect_while (λ _, true)) [] (ro_tx b) = Ret (reverse l, None) (ro_tx b).
Proof.
  simpl. split; [reflexivity|]. split; [reflexivity|]. split; [left; reflexivity|].
  exact (Ascend_shows_what_Get_hides (IsExpired_at 20) IsInvalid_flag
           (ro_tx (indexed_bucket {[ "a" := stale ]} read_held))
           (indexed_bucket {[ "a" := stale ]} read_held) (Entry_of_key "a") stale
           eq_refl eq_refl (or_introl eq_refl)).
Defined.


(** X8.  [Indexes] lists the registry.  On a transaction with a bucket,
    whatever the order in which the loop visits the registry, [Indexes]
    returns no error, changes nothing, and returns every registered name
    once and no other name. *)
Theorem Indexes_lists_registry (tx : Tx) (b : Bucket) (sched : list (string * Index)) :
  bkt tx = Some b → visits (indexes b) sched →
  ∃ names, Tx_Indexes_in sched tx = Ret (names, None) tx ∧
           NoDup names ∧ length names = size (indexes b) ∧
           ∀ pat, pat ∈ names ↔ is_Some (indexes b !! pat).
Proof.
  intros Hb Hs. unfold Tx_Indexes_in. rewrite Hb, Indexes_loop. simpl.
  eexists. split; [reflexivity|]. unfold visits in Hs. split; [|split].
  - rewrite Hs. apply NoDup_fst_map_to_list.
  - rewrite length_fmap, Hs. by rewrite length_map_to_list.
  - intros pat. rewrite Hs. split.
    + intros ([pat' ind] & -> & Hin)%list_elem_of_fmap.
      apply elem_of_map_to_list in Hin. by eexists.
    + intros [ind Hin]. apply list_elem_of_fmap. exists (pat, ind).
      split; [done|]. by apply elem_of_map_to_list.
Qed.

Lemma Indexes_lists_registry_witness :
  let b := indexed_bucket ∅ read_held in
  bkt (ro_tx b) = Some b ∧ visits (indexes b) (map_to_list (indexes b)) ∧
  ∃ names, Tx_Indexes_in (map_to_list (indexes b)) (ro_tx b)
           = Ret (names, None) (ro_tx b) ∧
           NoDup names ∧ length names = size (indexes b) ∧
           ∀ pat, pat ∈ names ↔ is_Some (indexes b !! pat).
Proof.
  simpl. split; [reflexivity|].
  assert (visits (indexes (indexed_bucket ∅ read_held))
            (map_to_list (indexes (indexed_bucket ∅ read_held)))) as Hv.
  { unfold visits. apply Permutation_refl. }
  split; [exact Hv|].
  exact (Indexes_lists_registry (ro_tx (indexed_bucket ∅ read_held))
           (indexed_bucket ∅ read_held) _ eq_refl Hv).
Defined.

(** ** Commit and rollback *)

(** X9.  [CommitTx] only writes the log.  On a ReadWrite transaction that
    holds the write lock, database open, whatever the order of the visit of
    the forward map: [CommitTx] returns no error; the primary index, the
    registry and the three maps of the context are unchanged (the context
    is not cleared); the pending buffer is flushed and empty; the log has
    grown by the records that were pending and by one record per key of
    the forward map, the record of its binding. *)
Theorem commit_only_writes_the_log (tx : Tx) (b : Bucket)
    (sched : list (string * option Entry)) :
  db_open (db tx) = true → mode tx = MODE_READ_WRITE → bkt tx = Some b →
  writer (bktlock b) = true → visits (forward (rbctx tx)) sched →
  ∃ tx' b' recs,
    Tx_CommitTx_in sched tx = Ret None tx' ∧ bkt tx' = Some b' ∧
    data b' = data b ∧ indexes b' = indexes b ∧ open b' = open b ∧
    rbctx tx' = rbctx tx ∧
    aofbuf b' = [] ∧ aof b' = (aof b ++ aofbuf b ++ recs)%list ∧
    length recs = size (forward (rbctx tx)) ∧
    ∀ r, r ∈ recs ↔ ∃ key oe, forward (rbctx tx) !! key = Some oe ∧ r = record_of (key, oe).
Proof.
  intros Hdb Hm Hb Hw Hs. unfold Tx_CommitTx_in, andThen. rewrite Hdb, Hm, Hb. simpl.
  rewrite commit_loop_log.
  erewrite Tx_unlock_write; [|reflexivity|done|done].
  eexists _, _, (record_of <$> sched). split; [reflexivity|]. simpl.
  split; [reflexivity|]. simpl. do 6 (split; [done|]). unfold visits in Hs. split.
  - by rewrite length_fmap, Hs, length_map_to_list.
  - intros r. rewrite list_elem_of_fmap. split.
    + intros ([key oe] & -> & Hin). rewrite Hs in Hin.
      apply elem_of_map_to_list in Hin. eauto.
    + intros (key & oe & Hf & ->). exists (key, oe). split; [done|].
      rewrite Hs. by apply elem_of_map_to_list.
Qed.

Lemma commit_only_writes_the_log_witness :
  let tx := written_tx write_held MODE_READ_WRITE in
  let b := indexed_bucket {[ "a" := a2; "b" := b1 ]} write_held in
  let sched := map_to_list (forward (rbctx tx)) in
  db_open (db tx) = true ∧ mode tx = MODE_READ_WRITE ∧ bkt tx = Some b ∧
  writer (bktlock b) = true ∧ visits (forward (rbctx tx)) sched ∧
  ∃ tx' b' recs,
    Tx_CommitTx_in sched tx = Ret None tx' ∧ bkt tx' = Some b' ∧
    data b' = data b ∧ indexes b' = indexes b ∧ open b' = open b ∧
    rbctx tx' = rbctx tx ∧
    aofbuf b' = [] ∧ aof b' = (aof b ++ aofbuf b ++ recs)%list ∧
    length recs = size (forward (rbctx tx)) ∧
    ∀ r, r ∈ recs ↔ ∃ key oe, forward (rbctx tx) !! key = Some oe ∧ r = record_of (key, oe).
Proof.
  assert (visits (forward (rbctx (written_tx write_held MODE_READ_WRITE)))
            (map_to_list (forward (rbctx (written_tx write_held MODE_READ_WRITE))))) as Hv.
  { unfold visits. apply Permutation_refl. }
  simpl. do 4 (split; [reflexivity|]). split; [exact Hv|].
  exact (commit_only_writes_the_log (written_tx write_held MODE_READ_WRITE)
           (indexed_bucket {[ "a" := a2; "b" := b1 ]} write_held) _
           eq_refl eq_refl eq_refl eq_refl Hv).
Defined.

(** X10.  [RollbackTx] has no error path and spares the log.  On a
    transaction with a bucket, whatever list of bindings its loop visits:
    when the lock is held in the mode of the transaction, [RollbackTx]
    returns [nil], with database handle, mode and the three maps of the
    context unchanged (the context is not cleared), the log and its pending
    buffer unchanged, the bucket still open or closed as it was, and the
    lock released once; when the lock is not held that way, the release is
    a fatal error. *)
Theorem rollback_spares_log_and_context (tx : Tx) (b : Bucket)
    (sched : list (string * option Entry)) :
  bkt tx = Some b →
  (held (mode tx) (bktlock b) →
   ∃ tx' b', Tx_RollbackTx_in sched tx = Ret None tx' ∧ bkt tx' = Some b' ∧
             db tx' = db tx ∧ mode tx' = mode tx ∧ rbctx tx' = rbctx tx ∧
             aof b' = aof b ∧ aofbuf b' = aofbuf b ∧ open b' = open b ∧
             bktlock b' = released (mode tx) (bktlock b)) ∧
  (¬ held (mode tx) (bktlock b) → Tx_RollbackTx_in sched tx = Crash).
Proof.
  intros Hb. split.
  - intros Hh.
    destruct (Tx_RollbackTx_in sched tx) as [r tx'|] eqn:Hr.
    + destruct (rollback_returns _ _ _ _ Hr)
        as (-> & Hdb & Hm & Hc & b0 & b' & Hb0 & Hb' & H1 & H2 & H3 & _ & H4).
      rewrite Hb in Hb0. injection Hb0 as <-. by exists tx', b'.
    + exfalso. unfold Tx_RollbackTx_in, andThen in Hr. rewrite Hb in Hr.
      destruct (rollback_loop_frame sched b) as (Hl & _).
      erewrite Tx_unlock_held in Hr; [done|reflexivity|by simpl; rewrite Hl].
  - intros Hn. destruct (Tx_RollbackTx_in sched tx) as [r tx'|] eqn:Hr; [|done].
    destruct (rollback_returns _ _ _ _ Hr)
      as (_ & _ & _ & _ & b0 & _ & Hb0 & _ & _ & _ & _ & Hh & _).
    rewrite Hb in Hb0. injection Hb0 as <-. done.
Qed.

Lemma rollback_spares_log_and_context_witness :
  let tx := written_tx write_held MODE_READ_WRITE in
  let b := indexed_bucket {[ "a" := a2; "b" := b1 ]} write_held in
  let sched := map_to_list (backward (rbctx tx)) in
  bkt tx = Some b ∧ held (mode tx) (bktlock b) ∧
  ∃ tx' b', Tx_RollbackTx_in sched tx = Ret None tx' ∧ bkt tx' = Some b' ∧
            db tx' = db tx ∧ mode tx' = mode tx ∧ rbctx tx' = rbctx tx ∧
            aof b' = aof b ∧ aofbuf b' = aofbuf b ∧ open b' = open b ∧
            bktlock b' = released (mode tx) (bktlock b).
Proof.
  simpl. split; [reflexivity|]. split; [reflexivity|].
  destruct (rollback_spares_log_and_context (written_tx write_held MODE_READ_WRITE)
              (indexed_bucket {[ "a" := a2; "b" := b1 ]} write_held)
              (map_to_list (backward (rbctx (written_tx write_held MODE_READ_WRITE))))
              eq_refl) as [Hret _].
  exact (Hret eq_refl).
Defined.




(** X19.  The maps of the context stay keyed.  When the primary index and
    the backward and forward maps file every entry under its own key, they
    still do after a [Set] or a [Delete], whatever it returned. *)
Theorem writes_keep_maps_keyed (o : WriteOp) (tx tx' : Tx) (b : Bucket)
    (r : option Entry * option error) :
  bkt tx = Some b → keyed (data b) →
  keyed_bindings (backward (rbctx tx)) → keyed_bindings (forward (rbctx tx)) →
  Tx_write o tx = Ret r tx' →
  ∃ b', bkt tx' = Some b' ∧ keyed (data b') ∧
        keyed_bindings (backward (rbctx tx')) ∧ keyed_bindings (forward (rbctx tx')).
Proof.
  intros Hb Hk Hkb Hkf. destruct o as [e|e]; simpl.
  - unfold Tx_Set. destruct (invalid_state tx); [intros [= _ <-]; eauto|].
    rewrite Hb. simpl. intros [= _ <-]. simpl. eexists. split; [reflexivity|]. simpl.
    split; [|split].
    + intros key e'. destruct (decide (k e = key)) as [<-|Hne].
      * rewrite lookup_insert_eq. by intros [= <-].
      * rewrite lookup_insert_ne by done. apply Hk.
    + intros key e'. destruct (decide (k e = key)) as [<-|Hne].
      * rewrite lookup_insert_eq. intros [= Hpre]. by apply Hk.
      * rewrite lookup_insert_ne by done. apply Hkb.
    + intros key e'. destruct (decide (k e = key)) as [<-|Hne].
      * rewrite lookup_insert_eq. by intros [= <-].
      * rewrite lookup_insert_ne by done. apply Hkf.
  - unfold Tx_Delete. destruct (invalid_state tx); [intros [= _ <-]; eauto|].
    rewrite Hb. simpl.
    assert (keyed (delete (k e) (data b))) as Hkd.
    { intros key e'. intros [_ Hin]%lookup_delete_Some. by apply Hk. }
    destruct (data b !! k e) as [old|] eqn:Hold; intros [= _ <-]; simpl;
      (eexists; split; [reflexivity|]); simpl; (split; [done|]); [|done].
    split.
    + intros key e'. destruct (decide (k e = key)) as [<-|Hne].
      * rewrite lookup_insert_eq. intros [= <-]. by apply Hk.
      * rewrite lookup_insert_ne by done. apply Hkb.
    + intros key e'. destruct (decide (k e = key)) as [<-|Hne].
      * by rewrite lookup_insert_eq.
      * rewrite lookup_insert_ne by done. apply Hkf.
Qed.

Lemma writes_keep_maps_keyed_witness :
  let b := empty_bucket write_held in
  let tx' := {| db := open_db; bkt := Some (set_data {[ "a" := a1 ]} b);
                mode := MODE_READ_WRITE;
                rbctx := {| backward := {[ "a" := None ]};
                            forward := {[ "a" := Some a1 ]};
                            backwardIndex := ∅ |} |} in
  bkt (rw_tx b) = Some b ∧ keyed (data b) ∧
  keyed_bindings (backward (rbctx (rw_tx b))) ∧
  keyed_bindings (forward (rbctx (rw_tx b))) ∧
  Tx_write (OpSet a1) (rw_tx b) = Ret (None, None) tx' ∧
  ∃ b', bkt tx' = Some b' ∧ keyed (data b') ∧
        keyed_bindings (backward (rbctx tx')) ∧ keyed_bindings (forward (rbctx tx')).
Proof.
  assert (keyed (data (empty_bucket write_held))) as Hk.
  { intros key e. simpl. rewrite lookup_empty. discriminate. }
  assert (keyed_bindings (backward (rbctx (rw_tx (empty_bucket write_held))))) as Hkb.
  { intros key e. simpl. rewrite lookup_empty. discriminate. }
  assert (keyed_bindings (forward (rbctx (rw_tx (empty_bucket write_held))))) as Hkf.
  { intros key e. simpl. rewrite lookup_empty. discriminate. }
  assert (Tx_write (OpSet a1) (rw_tx (empty_bucket write_held))
          = Ret (None, None)
              {| db := open_db;
                 bkt := Some (set_data {[ "a" := a1 ]} (empty_bucket write_held));
                 mode := MODE_READ_WRITE;
                 rbctx := {| backward := {[ "a" := None ]};
                             forward := {[ "a" := Some a1 ]};
                             backwardIndex := ∅ |} |}) as Hw.
  { vm_compute. reflexivity. }
  simpl. split; [reflexivity|]. split; [exact Hk|]. split; [exact Hkb|].
  split; [exact Hkf|]. split; [exact Hw|].
  exact (writes_keep_maps_keyed (OpSet a1) (rw_tx (empty_bucket write_held)) _
           (empty_bucket write_held) _ eq_refl Hk Hkb Hkf Hw).
Defined.

(** ** The lock *)

(** X12.  [lock] then [unlock] is the identity.  When [lock] acquires the
    lock of the bucket (shared in ReadOnly mode, exclusive in ReadWrite
    mode) without having to wait, the [unlock] that follows returns and
    leaves the transaction and the lock exactly as they were before
    [lock]. *)
Theorem lock_then_unlock (tx tx1 : Tx) :
  Tx_lock tx = Some tx1 → Tx_unlock tx1 = Ret tt tx.
Proof.
  unfold Tx_lock, Tx_unlock. destruct tx as [d [b|] m c]; simpl; [|done].
  destruct b as [dt ix [r w] o buf f]. destruct m; simpl.
  - unfold RLock, RUnlock; simpl. destruct w; simpl; [done|].
    by intros [= <-].
  - unfold Lock, Unlock; simpl. destruct r, w; simpl; try done.
    by intros [= <-].
Qed.

Lemma lock_then_unlock_witness :
  let free := {| readers := 0; writer := false |} in
  Tx_lock (rw_tx (empty_bucket free)) = Some (rw_tx (empty_bucket write_held)) ∧
  Tx_unlock (rw_tx (empty_bucket write_held)) = Ret tt (rw_tx (empty_bucket free)).
Proof.
  simpl. split; [reflexivity|].
  exact (lock_then_unlock (rw_tx (empty_bucket {| readers := 0; writer := false |}))
           (rw_tx (empty_bucket write_held)) eq_refl).
Defined.



(** X14.  In the first version of the file ([src/tx.go]) [CommitTx] has no
    early return: on a transaction that holds the lock of its bucket it
    returns [nil] with the lock released once and nothing else changed,
    also when the database is closed and also in ReadOnly mode, exactly as
    [RollbackTx] of that version does. *)
Theorem skeleton_commit_always_unlocks (tx : Tx) (b : Bucket) :
  bkt tx = Some b → held (mode tx) (bktlock b) →
  Skeleton.Tx_CommitTx tx
  = Ret None (set_bkt (set_bktlock (released (mode tx) (bktlock b)) b) tx) ∧
  Skeleton.Tx_RollbackTx tx
  = Ret None (set_bkt (set_bktlock (released (mode tx) (bktlock b)) b) tx).
Proof.
  intros Hb Hh.
  assert (Skeleton.Tx_unlock tx
          = Ret tt (set_bkt (set_bktlock (released (mode tx) (bktlock b)) b) tx)) as Hu.
  { exact (Tx_unlock_held tx b Hb Hh). }
  unfold Skeleton.Tx_CommitTx, Skeleton.Tx_RollbackTx, andThen.
  by rewrite Hu.
Qed.

Lemma skeleton_commit_always_unlocks_witness :
  let tx := NewTx closed_db (Some (empty_bucket read_held)) MODE_READ in
  bkt tx = Some (empty_bucket read_held) ∧
  held (mode tx) (bktlock (empty_bucket read_held)) ∧
  Skeleton.Tx_CommitTx tx
  = Ret None (set_bkt (set_bktlock {| readers := 0; writer := false |}
                         (empty_bucket read_held)) tx) ∧
  Skeleton.Tx_RollbackTx tx
  = Ret None (set_bkt (set_bktlock {| readers := 0; writer := false |}
                         (empty_bucket read_held)) tx).
Proof.
  simpl. split; [reflexivity|]. split; [lia|].
  exact (skeleton_commit_always_unlocks
           (NewTx closed_db (Some (empty_bucket read_held)) MODE_READ)
           (empty_bucket read_held) eq_refl (le_n 1)).
Defined.

(** ** Walks *)

(** X15.  [Ascend] and [Descend] walk the whole primary index, in opposite
    orders.  On a transaction with a bucket, whatever the state of the
    database, a visitor that always answers [true] is shown by [Ascend]
    every entry of the primary index once, in increasing order of the
    keys, and by [Descend] the same entries in the reverse order; both
    return no error and change nothing. *)
Theorem Ascend_visits_in_key_order (tx : Tx) (b : Bucket) :
  bkt tx = Some b →
  ∃ l, Tx_Ascend (collect_while (λ _, true)) [] tx = Ret (l, None) tx ∧
       Tx_Descend (collect_while (λ _, true)) [] tx = Ret (reverse l, None) tx ∧
       Sorted Entry_le l ∧ length l = size (data b) ∧
       ∀ e, e ∈ l ↔ ∃ key, data b !! key = Some e.
Proof.
  intros Hb. exists (ascending (data b)). unfold Tx_Ascend, Tx_Descend, descending.
  rewrite Hb, !walk_collect_all. simpl. do 2 (split; [done|]).
  split; [apply (Sorted_merge_sort _)|]. split.
  - unfold ascending. by rewrite merge_sort_Permutation, length_fmap, length_map_to_list.
  - apply ascending_elem.
Qed.

Lemma Ascend_visits_in_key_order_witness :
  let tx := written_tx read_held MODE_READ in
  let b := indexed_bucket {[ "a" := a2; "b" := b1 ]} read_held in
  bkt tx = Some b ∧
  ∃ l, Tx_Ascend (collect_while (λ _, true)) [] tx = Ret (l, None) tx ∧
       Tx_Descend (collect_while (λ _, true)) [] tx = Ret (reverse l, None) tx ∧
       Sorted Entry_le l ∧ length l = size (data b) ∧
       ∀ e, e ∈ l ↔ ∃ key, data b !! key = Some e.
Proof.
  simpl. split; [reflexivity|].
  exact (Ascend_visits_in_key_order (written_tx read_held MODE_READ)
           (indexed_bucket {[ "a" := a2; "b" := b1 ]} read_held) eq_refl).
Defined.

(** X16.  A walk stops at the first [false].  A visitor that answers [p]
    of the entry it is shown is shown, by [Ascend], the entries in
    increasing order of the keys up to and including the first one of
    which [p] fails, and no entry after it; by [Descend], likewise in
    decreasing order.  It is shown every entry when [p] never fails. *)
Theorem walk_stops_at_first_false (tx : Tx) (b : Bucket) (p : Entry → bool) :
  bkt tx = Some b →
  ∃ up down,
    Tx_Ascend (collect_while p) [] tx = Ret (up, None) tx ∧
    shown_until p (ascending (data b)) up ∧
    Tx_Descend (collect_while p) [] tx = Ret (down, None) tx ∧
    shown_until p (reverse (ascending (data b))) down.
Proof.
  intros Hb. unfold Tx_Ascend, Tx_Descend, descending. rewrite Hb.
  eexists _, _. split; [reflexivity|]. split; [apply walk_collect_while|].
  split; [reflexivity|]. apply walk_collect_while.
Qed.

Lemma walk_stops_at_first_false_witness :
  let tx := written_tx read_held MODE_READ in
  let b := indexed_bucket {[ "a" := a2; "b" := b1 ]} read_held in
  let p := λ e : Entry, false in
  bkt tx = Some b ∧
  ∃ up down,
    Tx_Ascend (collect_while p) [] tx = Ret (up, None) tx ∧
    shown_until p (ascending (data b)) up ∧
    Tx_Descend (collect_while p) [] tx = Ret (down, None) tx ∧
    shown_until p (reverse (ascending (data b))) down.
Proof.
  simpl. split; [reflexivity|].
  exact (walk_stops_at_first_false (written_tx read_held MODE_READ)
           (indexed_bucket {[ "a" := a2; "b" := b1 ]} read_held) (λ _, false) eq_refl).
Defined.
